(** * ember-jargo-realtime: the realtime store mixin

    A shallow embedding of [addon/mixins/realtime-store-mixin.js]:
    the [CementChannel] correlation protocol, the [RealtimeSocket]
    connection handling and the store mixin's subscription registry,
    together with the properties of the specification that concern them.

    JavaScript objects used as dictionaries ([cementMessages],
    [subscriptions], [jsonapiModelNames]) are finite maps keyed by
    strings, holding the members of their own; for the registry, on whose
    slots [_push] calls [includes], the members every object inherits are
    modelled as well.  Promises are cells of a store, addressed by the
    order in which they were created; everything the runtime or the host
    supplies ([UUID.v4], the adapter's [pathForType], [shouldSubscribe])
    is a section variable.

    The code runs on one thread, a handler at a time: an event of the
    transport or of the host is one step of the store.  A task of
    ember-concurrency is followed from [yield] to [yield]: [perform] runs
    the task up to its first [yield] at once, and the task continues in a
    step of its own when the promise it waits for has settled. *)

From Stdlib Require Import ZArith Ascii String List Floats.SpecFloat.
From stdpp Require Import base option list gmap strings pretty.

Set Warnings "-register-all".

Local Open Scope string_scope.
Local Open Scope list_scope.

(** ** JSON values and the runtime's [JSON.parse] / [JSON.stringify]

    A string is a sequence of bytes: the JavaScript string written in
    UTF-8 (a surrogate that stands alone, for which UTF-8 has no form,
    is written in three bytes in the same way).  A number is an IEEE 754
    double; a number literal stands for the double nearest to it, ties
    going to the even one. *)

Definition number : Type := spec_float.

Global Instance number_eq_dec : EqDecision number.
Proof. solve_decision. Defined.

Definition prec : Z := 53.
Definition emax : Z := 1024.

(** [m * 10 ^ e] as a double, for [0 <= m < 10 ^ count]: above [10 ^ 400]
    it is infinite and below [10 ^ -400] it is zero, whatever the digits. *)
Definition number_of_decimal (neg : bool) (m count e : Z) : number :=
  if bool_decide (m = 0)%Z then S754_zero neg
  else if bool_decide (400 < e)%Z then S754_infinity neg
  else if bool_decide (count + e < -400)%Z then S754_zero neg
  else if bool_decide (0 ≤ e)%Z then
    binary_normalize prec emax (if neg then - (m * 10 ^ e) else m * 10 ^ e)%Z 0 false
  else
    let '(q, e', l) := SFdiv_core_binary prec emax m 0 (10 ^ (- e))%Z 0 in
    binary_round_aux prec emax neg q e' l.

(** [m * 2 ^ e * 10 ^ d] as a fraction. *)
Definition scaled (m : positive) (e d : Z) : Z * Z :=
  ((Z.pos m * 2 ^ Z.max e 0 * 10 ^ Z.max d 0)%Z, (2 ^ Z.max (- e) 0 * 10 ^ Z.max (- d) 0)%Z).

(** The least [n] from [n0] on with [m * 2 ^ e < 10 ^ n]. *)
Fixpoint magnitude (fuel : nat) (m : positive) (e n0 : Z) : Z :=
  match fuel with
  | O => n0
  | S fuel' =>
      let '(num, den) := scaled m e (- n0) in
      if bool_decide (num < den)%Z then n0 else magnitude fuel' m e (n0 + 1)%Z
  end.

(** Of the decimals [s * 10 ^ (n - k)] that read back as [m * 2 ^ e], the
    one nearest to it (the even one of two as near), if there is any. *)
Definition nearest_of (m : positive) (e n k : Z) : option Z :=
  let '(num, den) := scaled m e (k - n) in
  let lo := (num / den)%Z in
  let hi := (lo + 1)%Z in
  let reads (s : Z) :=
    bool_decide (number_of_decimal false s k (n - k) = S754_finite false m e) in
  match reads lo, reads hi with
  | true, true =>
      match (2 * num ?= (lo + hi) * den)%Z with
      | Lt => Some lo
      | Gt => Some hi
      | Eq => Some (if Z.even lo then lo else hi)
      end
  | true, false => Some lo
  | false, true => Some hi
  | false, false => None
  end.

(** The fewest digits [k] from which the double can be read back, and the
    decimal [s] of [k] digits. *)
Fixpoint shortest (fuel : nat) (m : positive) (e n k : Z) : Z * Z :=
  match fuel with
  | O => (Z.pos m, k)
  | S fuel' =>
      match nearest_of m e n k with
      | Some s => (s, k)
      | None => shortest fuel' m e n (k + 1)%Z
      end
  end.

Definition zeros (n : Z) : string := string_of_list_ascii (replicate (Z.to_nat n) "0"%char).

(** [Number::toString] of the positive double [m * 2 ^ e]: its digits
    [s], their number [k], and the place [n] of the point. *)
Definition digits_toString (m : positive) (e : Z) : string :=
  let bits := (Z.pos (digits2_pos m) + e)%Z in
  let n := magnitude 8 m e (bits * 30103 / 100000 - 2)%Z in
  let '(s, k) := shortest 17 m e n 1 in
  let '(s, k, n) := if bool_decide (s = 10 ^ k)%Z then (1%Z, 1%Z, (n + 1)%Z) else (s, k, n) in
  let ds : string := pretty s in
  if bool_decide (k ≤ n ≤ 21)%Z then ds +:+ zeros (n - k)
  else if bool_decide (0 < n ≤ 21)%Z then
    string_of_list_ascii (take (Z.to_nat n) (list_ascii_of_string ds)) +:+ "." +:+
    string_of_list_ascii (drop (Z.to_nat n) (list_ascii_of_string ds))
  else if bool_decide (-6 < n ≤ 0)%Z then "0." +:+ zeros (- n) +:+ ds
  else
    let mantissa :=
      match ds with
      | String c (String c' r) => String c ("." +:+ String c' r)
      | _ => ds
      end in
    mantissa +:+ "e" +:+ (if bool_decide (n - 1 < 0)%Z then "-" else "+") +:+ pretty (Z.abs (n - 1)).

Definition Number_toString (x : number) : string :=
  match x with
  | S754_zero _ => "0"
  | S754_infinity false => "Infinity"
  | S754_infinity true => "-Infinity"
  | S754_nan => "NaN"
  | S754_finite false m e => digits_toString m e
  | S754_finite true m e => "-" +:+ digits_toString m e
  end.

Inductive json : Type :=
| JNull
| JBool (b : bool)
| JNum (x : number)
| JStr (s : string)
| JArr (elems : list json)
| JObj (props : list (string * json)).

(** The result of reading a property or a dictionary slot is an
    [option]: [None] is JavaScript's [undefined]. *)

Inductive error : Type :=
| SyntaxError
| TypeError.

(** The completion of a handler: it returns, or it throws. *)
Inductive completion (A : Type) : Type :=
| Normal (a : A)
| Throw (e : error).
Arguments Normal {A} a.
Arguments Throw {A} e.

Local Open Scope char_scope.

Definition dquote : ascii := "034".
Definition backslash : ascii := "092".

Definition is_ws (c : ascii) : bool :=
  match nat_of_ascii c with
  | 32%nat | 9%nat | 10%nat | 13%nat => true
  | _ => false
  end.

Fixpoint skip_ws (s : list ascii) : list ascii :=
  match s with
  | c :: r => if is_ws c then skip_ws r else s
  | [] => []
  end.

Definition digit_val (c : ascii) : option Z :=
  let n := nat_of_ascii c in
  if bool_decide (48 ≤ n ≤ 57)%nat then Some (Z.of_nat (n - 48)) else None.

Definition hex_val (c : ascii) : option nat :=
  let n := nat_of_ascii c in
  if bool_decide (48 ≤ n ≤ 57)%nat then Some (n - 48)%nat
  else if bool_decide (97 ≤ n ≤ 102)%nat then Some (n - 87)%nat
  else if bool_decide (65 ≤ n ≤ 70)%nat then Some (n - 55)%nat
  else None.

(** The digits that follow: the number they continue, how many digits it
    has then, and the rest. *)
Fixpoint parse_digits (acc count : Z) (s : list ascii) : Z * Z * list ascii :=
  match s with
  | c :: r =>
      match digit_val c with
      | Some d => parse_digits (10 * acc + d) (count + 1) r
      | None => (acc, count, s)
      end
  | [] => (acc, count, [])
  end.

(** An optional fraction, a point and at least one digit: the digits read
    so far as one number, how many they are, and how many of them stand
    after the point. *)
Definition parse_fraction (m count : Z) (s : list ascii) : option (Z * Z * Z * list ascii) :=
  match s with
  | "." :: c :: r =>
      match digit_val c with
      | Some d =>
          let '(m', count', rest) := parse_digits (10 * m + d) (count + 1) r in
          Some (m', count', (count' - count)%Z, rest)
      | None => None
      end
  | "." :: [] => None
  | _ => Some (m, count, 0%Z, s)
  end.

(** An optional exponent: [e] or [E], an optional sign, at least one digit. *)
Definition parse_exponent (s : list ascii) : option (Z * list ascii) :=
  let digits (neg : bool) (r : list ascii) : option (Z * list ascii) :=
    match r with
    | c :: r' =>
        match digit_val c with
        | Some d => let '(e, _, rest) := parse_digits d 1 r' in
                    Some (if neg then (- e)%Z else e, rest)
        | None => None
        end
    | [] => None
    end in
  let signed (r : list ascii) : option (Z * list ascii) :=
    match r with
    | "-" :: r' => digits true r'
    | "+" :: r' => digits false r'
    | _ => digits false r
    end in
  match s with
  | "e" :: r => signed r
  | "E" :: r => signed r
  | _ => Some (0%Z, s)
  end.

(** A number literal: an optional minus sign, then a single zero or a
    nonzero digit followed by digits, then an optional fraction and an
    optional exponent. *)
Definition parse_number (s : list ascii) : option (number * list ascii) :=
  let '(neg, s1) := match s with
                    | "-" :: r => (true, r)
                    | _ => (false, s)
                    end in
  match s1 with
  | c :: r =>
      match digit_val c with
      | Some d =>
          let '(int, count, s2) := if bool_decide (d = 0%Z) then (0%Z, 1%Z, r)
                                   else parse_digits d 1 r in
          '(m, count', fraction, s3) ← parse_fraction int count s2;
          '(e, rest) ← parse_exponent s3;
          Some (number_of_decimal neg m count' (e - fraction), rest)
      | None => None
      end
  | [] => None
  end.

(** The bytes of a code point. *)
Definition utf8 (cp : N) : string :=
  let byte (n : N) : ascii := ascii_of_N n in
  if (cp <? 128)%N then String (byte cp) EmptyString
  else if (cp <? 2048)%N then
    String (byte (192 + cp / 64)%N) (String (byte (128 + cp mod 64)%N) EmptyString)
  else if (cp <? 65536)%N then
    String (byte (224 + cp / 4096)%N)
      (String (byte (128 + cp / 64 mod 64)%N) (String (byte (128 + cp mod 64)%N) EmptyString))
  else
    String (byte (240 + cp / 262144)%N)
      (String (byte (128 + cp / 4096 mod 64)%N)
         (String (byte (128 + cp / 64 mod 64)%N)
            (String (byte (128 + cp mod 64)%N) EmptyString))).

(** The code unit of the four hexadecimal digits of a [\u] escape. *)
Definition hex4 (h1 h2 h3 h4 : ascii) : option N :=
  a ← hex_val h1; b ← hex_val h2; c ← hex_val h3; d ← hex_val h4;
  Some (N.of_nat (((a * 16 + b) * 16 + c) * 16 + d)).

(** The second half of a surrogate pair, if the text goes on with the
    escape of one: the code unit and what follows the escape. *)
Definition low_surrogate (s : list ascii) : option (N * list ascii) :=
  match s with
  | b :: u :: h1 :: h2 :: h3 :: h4 :: r =>
      if bool_decide (b = backslash) && bool_decide (u = "u") then
        low ← hex4 h1 h2 h3 h4;
        if (56320 <=? low)%N && (low <? 57344)%N then Some (low, r) else None
      else None
  | _ => None
  end.

(** The characters of a string literal, after its opening quote. *)
Fixpoint parse_chars (fuel : nat) (s : list ascii) : option (string * list ascii) :=
  match fuel with
  | O => None
  | S fuel' =>
      match s with
      | [] => None
      | c :: r =>
          if bool_decide (c = dquote) then Some (EmptyString, r)
          else if bool_decide (c = backslash) then
            match r with
            | e :: r' =>
                let plain (x : ascii) :=
                  '(t, rest) ← parse_chars fuel' r'; Some (String x t, rest) in
                if bool_decide (e = dquote) then plain dquote
                else if bool_decide (e = backslash) then plain backslash
                else match e with
                     | "/" => plain "/"
                     | "b" => plain "008"
                     | "f" => plain "012"
                     | "n" => plain "010"
                     | "r" => plain "013"
                     | "t" => plain "009"
                     | "u" =>
                         match r' with
                         | h1 :: h2 :: h3 :: h4 :: r'' =>
                             unit ← hex4 h1 h2 h3 h4;
                             let pair :=
                               if (55296 <=? unit)%N && (unit <? 56320)%N
                               then low_surrogate r'' else None in
                             match pair with
                             | Some (low, r3) =>
                                 '(t, rest) ← parse_chars fuel' r3;
                                 Some (utf8 (65536 + (unit - 55296) * 1024 + (low - 56320))%N
                                       +:+ t, rest)
                             | None =>
                                 '(t, rest) ← parse_chars fuel' r'';
                                 Some (utf8 unit +:+ t, rest)
                             end
                         | _ => None
                         end
                     | _ => None
                     end
            | [] => None
            end
          else if bool_decide (nat_of_ascii c < 32)%nat then None
          else '(t, rest) ← parse_chars fuel' r; Some (String c t, rest)
      end
  end.

Section Composite.
Variable parse_value : list ascii → option (json * list ascii).

(** The elements of an array after the first one, up to the closing bracket. *)
Fixpoint parse_elements (fuel : nat) (s : list ascii) : option (list json * list ascii) :=
  match fuel with
  | O => None
  | S fuel' =>
      match skip_ws s with
      | "]" :: r => Some ([], r)
      | "," :: r =>
          '(v, r1) ← parse_value r;
          '(vs, r2) ← parse_elements fuel' r1;
          Some (v :: vs, r2)
      | _ => None
      end
  end.

Definition parse_member (s : list ascii) : option (string * json * list ascii) :=
  match skip_ws s with
  | c :: r =>
      if bool_decide (c = dquote) then
        '(k, r1) ← parse_chars (S (length r)) r;
        match skip_ws r1 with
        | ":" :: r2 => '(v, r3) ← parse_value r2; Some (k, v, r3)
        | _ => None
        end
      else None
  | [] => None
  end.

(** The members of an object after the first one, up to the closing brace. *)
Fixpoint parse_members (fuel : nat) (s : list ascii)
  : option (list (string * json) * list ascii) :=
  match fuel with
  | O => None
  | S fuel' =>
      match skip_ws s with
      | "}" :: r => Some ([], r)
      | "," :: r =>
          '(k, v, r1) ← parse_member r;
          '(kvs, r2) ← parse_members fuel' r1;
          Some ((k, v) :: kvs, r2)
      | _ => None
      end
  end.
End Composite.

Definition expect (w : string) (v : json) (s : list ascii) : option (json * list ascii) :=
  let l := list_ascii_of_string w in
  if bool_decide (take (length l) s = l) then Some (v, drop (length l) s) else None.

Fixpoint parse_value (fuel : nat) (s : list ascii) : option (json * list ascii) :=
  match fuel with
  | O => None
  | S fuel' =>
      match skip_ws s with
      | [] => None
      | c :: r =>
          if bool_decide (c = dquote) then
            '(t, rest) ← parse_chars (S (length r)) r; Some (JStr t, rest)
          else match c with
               | "n" => expect "null"%string JNull (c :: r)
               | "t" => expect "true"%string (JBool true) (c :: r)
               | "f" => expect "false"%string (JBool false) (c :: r)
               | "[" =>
                   match skip_ws r with
                   | "]" :: r' => Some (JArr [], r')
                   | _ =>
                       '(v, r1) ← parse_value fuel' r;
                       '(vs, r2) ← parse_elements (parse_value fuel') (S (length r1)) r1;
                       Some (JArr (v :: vs), r2)
                   end
               | "{" =>
                   match skip_ws r with
                   | "}" :: r' => Some (JObj [], r')
                   | _ =>
                       '(k, v, r1) ← parse_member (parse_value fuel') r;
                       '(kvs, r2) ← parse_members (parse_value fuel') (S (length r1)) r1;
                       Some (JObj ((k, v) :: kvs), r2)
                   end
               | _ => '(x, rest) ← parse_number (c :: r); Some (JNum x, rest)
               end
      end
  end.

(** [JSON.parse(text)]: [None] is a thrown [SyntaxError]. *)
Definition JSON_parse (text : string) : option json :=
  let s := list_ascii_of_string text in
  match parse_value (S (length s)) s with
  | Some (v, rest) => match skip_ws rest with [] => Some v | _ => None end
  | None => None
  end.

Local Close Scope char_scope.

Definition hex_digit (n : nat) : ascii :=
  ascii_of_nat (if bool_decide (n < 10)%nat then 48 + n else 87 + n).

Definition escape_char (c : ascii) : string :=
  let n := nat_of_ascii c in
  if bool_decide (c = dquote) then String backslash (String dquote EmptyString)
  else if bool_decide (c = backslash) then String backslash (String backslash EmptyString)
  else match n with
       | 8%nat => String backslash "b"
       | 12%nat => String backslash "f"
       | 10%nat => String backslash "n"
       | 13%nat => String backslash "r"
       | 9%nat => String backslash "t"
       | _ =>
           if bool_decide (n < 32)%nat then
             String backslash
               ("u00" +:+ String (hex_digit (n / 16)) (String (hex_digit (n mod 16)) EmptyString))
           else String c EmptyString
       end.

Fixpoint escape (s : string) : string :=
  match s with
  | EmptyString => EmptyString
  | String c r => escape_char c +:+ escape r
  end.

Definition quote (s : string) : string :=
  String dquote (escape s +:+ String dquote EmptyString).

Fixpoint JSON_stringify (v : json) : string :=
  match v with
  | JNull => "null"
  | JBool true => "true"
  | JBool false => "false"
  | JNum (S754_infinity _) | JNum S754_nan => "null"
  | JNum x => Number_toString x
  | JStr s => quote s
  | JArr l =>
      "[" +:+ (fix items (l : list json) : string :=
                 match l with
                 | [] => EmptyString
                 | [x] => JSON_stringify x
                 | x :: r => JSON_stringify x +:+ "," +:+ items r
                 end) l +:+ "]"
  | JObj l =>
      "{" +:+ (fix members (l : list (string * json)) : string :=
                 match l with
                 | [] => EmptyString
                 | [(k, x)] => quote k +:+ ":" +:+ JSON_stringify x
                 | (k, x) :: r => quote k +:+ ":" +:+ JSON_stringify x +:+ "," +:+ members r
                 end) l +:+ "}"
  end.

(** JavaScript's [ToString], as applied to a property key and to the
    argument of [JSON.parse]. *)
Fixpoint ToString (v : json) : string :=
  match v with
  | JNull => "null"
  | JBool true => "true"
  | JBool false => "false"
  | JNum x => Number_toString x
  | JStr s => s
  | JArr l =>
      (fix join (l : list json) : string :=
         let item (x : json) := match x with JNull => EmptyString | _ => ToString x end in
         match l with
         | [] => EmptyString
         | [x] => item x
         | x :: r => item x +:+ "," +:+ join r
         end) l
  | JObj _ => "[object Object]"
  end.

Definition ToString_opt (v : option json) : string :=
  match v with
  | Some j => ToString j
  | None => "undefined"
  end.

(** The last binding of [k]: a repeated member name keeps its last value. *)
Fixpoint own_property (k : string) (props : list (string * json)) : option json :=
  match props with
  | [] => None
  | (k', v) :: r =>
      match own_property k r with
      | Some w => Some w
      | None => if bool_decide (k' = k) then Some v else None
      end
  end.

(** [data.k] for the member names the source reads ([id], [status],
    [model], [payload]): reading from [null] throws, strings, numbers,
    booleans and arrays have no such property. *)
Definition get (data : json) (k : string) : completion (option json) :=
  match data with
  | JNull => Throw TypeError
  | JObj props => Normal (own_property k props)
  | _ => Normal None
  end.


(** A JSON text written with apostrophes where the text has double quotes. *)
Fixpoint text (s : string) : string :=
  match s with
  | EmptyString => EmptyString
  | String c r => String (if bool_decide (c = "'"%char) then dquote else c) (text r)
  end.

Global Instance completion_ret : MRet completion := @Normal.
Global Instance completion_bind : MBind completion :=
  λ A B f m, match m with Normal a => f a | Throw e => Throw e end.

(** [JSON.parse] as the handlers call it. *)
Definition parse (message : string) : completion json :=
  match JSON_parse message with
  | Some data => Normal data
  | None => Throw SyntaxError
  end.

(** [v === 0]: the number zero, of either sign. *)
Definition is_zero (v : option json) : bool :=
  match v with
  | Some (JNum (S754_zero _)) => true
  | _ => false
  end.

(** ** Promises *)

Inductive value : Type :=
| VUndefined
| VJson (j : json)
| VError (message : string).

Inductive promise : Type :=
| Pending
| Resolved (v : value)
| Rejected (reason : value).

(** A promise settles once: [resolve] and [reject] act on a pending
    promise only. *)
Definition settle (p : nat) (outcome : promise) (ps : list promise) : list promise :=
  match ps !! p with
  | Some Pending => <[p := outcome]> ps
  | _ => ps
  end.

Definition resolve (p : nat) (v : value) : list promise → list promise :=
  settle p (Resolved v).
Definition reject (p : nat) (reason : value) : list promise → list promise :=
  settle p (Rejected reason).

(** ** CementChannel *)

Record CementChannel : Type := {
  (* id ↦ the resolve and reject functions of the promise [send] returned *)
  cementMessages : gmap string nat;
  (* the glue channel: what has been passed to its [send], oldest first *)
  channel : list string;
  (* the promises [send] has created, in order of creation *)
  promises : list promise
}.

Definition CementChannel_create : CementChannel :=
  {| cementMessages := ∅; channel := []; promises := [] |}.

(** [onMessage(message)].  Where [cementMessages] has no entry of its own
    under the id, [cementMessages[data.id]] is [undefined], or a member
    every object inherits, which has no [resolve] and no [reject]: either
    way the call throws a [TypeError]. *)
Definition onMessage (message : string) (this : CementChannel) : completion CementChannel :=
  data ← parse message;
  status ← get data "status";
  id ← get data "id";
  match cementMessages this !! ToString_opt id with
  | Some p =>
      Normal {| cementMessages := delete (ToString_opt id) (cementMessages this);
                channel := channel this;
                promises := (if is_zero status then resolve p (VJson data)
                             else reject p (VJson data)) (promises this) |}
  | None => Throw TypeError
  end.

(** [send(data)], with [id] the value [UUID.v4()] returns to it.  The
    result is the new promise and the channel. *)
Definition send (id data : string) (this : CementChannel) : nat * CementChannel :=
  (length (promises this),
   {| cementMessages := <[id := length (promises this)]> (cementMessages this);
      channel := channel this ++ [JSON_stringify (JObj [("id", JStr id); ("data", JStr data)])];
      promises := promises this ++ [Pending] |}).

(** ** RealtimeSocket *)

(** The glue socket's main channel: the function given to [onMessage]
    (the handshake promise its closure settles) and what was sent.
    glue's [onMessage] sets the function, replacing an earlier one. *)
Record Glue : Type := {
  onMessageFunc : option nat;
  sent : list string
}.

(** An instance of [socketOnConnectedTask], by the [yield] it is at. *)
Inductive handshake_task : Type :=
| AwaitConnectionMessage
| AwaitHandshake (p : nat)
| Finished
| Errored.

Record RealtimeSocket : Type := {
  glue : Glue;                        (* the field [socket] *)
  state : string;
  connected : bool;
  subscribeCementChannel : CementChannel;
  socketOnConnectedTask : list handshake_task;
  (* the promises [sendConnectionMessage] has created *)
  handshakes : list promise
}.

Definition set_glue (g : Glue) (s : RealtimeSocket) : RealtimeSocket :=
  {| glue := g; state := state s; connected := connected s;
     subscribeCementChannel := subscribeCementChannel s;
     socketOnConnectedTask := socketOnConnectedTask s; handshakes := handshakes s |}.
Definition set_state (v : string) (s : RealtimeSocket) : RealtimeSocket :=
  {| glue := glue s; state := v; connected := connected s;
     subscribeCementChannel := subscribeCementChannel s;
     socketOnConnectedTask := socketOnConnectedTask s; handshakes := handshakes s |}.
Definition set_connected (b : bool) (s : RealtimeSocket) : RealtimeSocket :=
  {| glue := glue s; state := state s; connected := b;
     subscribeCementChannel := subscribeCementChannel s;
     socketOnConnectedTask := socketOnConnectedTask s; handshakes := handshakes s |}.
Definition set_subscribeCementChannel (c : CementChannel) (s : RealtimeSocket) : RealtimeSocket :=
  {| glue := glue s; state := state s; connected := connected s;
     subscribeCementChannel := c;
     socketOnConnectedTask := socketOnConnectedTask s; handshakes := handshakes s |}.
Definition set_socketOnConnectedTask (t : list handshake_task) (s : RealtimeSocket) : RealtimeSocket :=
  {| glue := glue s; state := state s; connected := connected s;
     subscribeCementChannel := subscribeCementChannel s;
     socketOnConnectedTask := t; handshakes := handshakes s |}.
Definition set_handshakes (h : list promise) (s : RealtimeSocket) : RealtimeSocket :=
  {| glue := glue s; state := state s; connected := connected s;
     subscribeCementChannel := subscribeCementChannel s;
     socketOnConnectedTask := socketOnConnectedTask s; handshakes := h |}.

Definition RealtimeSocket_create : RealtimeSocket :=
  {| glue := {| onMessageFunc := None; sent := [] |};
     state := "disconnected";
     connected := false;
     subscribeCementChannel := CementChannel_create;
     socketOnConnectedTask := [];
     handshakes := [] |}.

(** [sendConnectionMessage]: the promise's executor installs the message
    function and sends the connection message. *)
Definition sendConnectionMessage (connectionMessage : string) (this : RealtimeSocket)
  : nat * RealtimeSocket :=
  let p := length (handshakes this) in
  (p, set_glue {| onMessageFunc := Some p; sent := sent (glue this) ++ [connectionMessage] |}
        (set_handshakes (handshakes this ++ [Pending]) this)).

(** The function [sendConnectionMessage] gives to [socket.onMessage]. *)
Definition connection_reply (p : nat) (message : string) : list promise → list promise :=
  if bool_decide (message = "CONNECTION_TIMEOUT") then
    reject p (VError "Did not send a connection message in time")
  else if bool_decide (message = "CONNECTION_DISALLOWED") then
    reject p (VError "Connection was not accepted")
  else if bool_decide (message = "CONNECTION_ACCEPTED") then
    resolve p VUndefined
  else λ ps, ps.

(** A message on the glue socket's main channel. *)
Definition socket_message (message : string) (this : RealtimeSocket) : RealtimeSocket :=
  match onMessageFunc (glue this) with
  | Some p => set_handshakes (connection_reply p message (handshakes this)) this
  | None => this
  end.

(** One round of the loop of [updateSocketStateTask]; [newState] is what
    [socket.state()] returns. *)
Definition updateSocketStateTask (newState : string) (this : RealtimeSocket) : RealtimeSocket :=
  if bool_decide (newState ≠ state this) then set_state newState this else this.

(** [subscribe(model, id)], with [uuid] the value of [UUID.v4()]. *)
Definition subscribe (uuid model id : string) (this : RealtimeSocket) : nat * RealtimeSocket :=
  let '(p, c) := send uuid (JSON_stringify (JObj [("model", JStr model); ("id", JStr id)]))
                   (subscribeCementChannel this) in
  (p, set_subscribeCementChannel c this).

(** ** The store mixin *)

(** A record, by what the mixin reads of it:
    [model._internalModel.modelName] and [model.id]. *)
Record Model : Type := {
  modelName : string;
  record_id : string
}.

(** A pushed internal model, by the record its [getRecord()] returns. *)
Record InternalModel : Type := {
  getRecord : Model
}.

(** The names of the members that every object inherits from
    [Object.prototype]: reading [object[name]] for one of them gives the
    inherited member (a function, or the prototype itself) where the
    object has no member of its own by that name. *)
Definition Object_prototype : list string :=
  ["constructor"; "__defineGetter__"; "__defineSetter__"; "hasOwnProperty";
   "__lookupGetter__"; "__lookupSetter__"; "isPrototypeOf"; "propertyIsEnumerable";
   "toString"; "valueOf"; "__proto__"; "toLocaleString"].

(** What the store's own [_push] returns. *)
Inductive pushed_value : Type :=
| PushedNull
| PushedOne (internalModel : InternalModel)
| PushedArray (internalModels : list InternalModel).

(** The calls the mixin makes into the store it is mixed into; a model
    name that [jsonapiModelNames] does not bind is [None]. *)
Inductive host_call : Type :=
| pushPayload (name : option string) (payload : json)
| deleteRecordTask (name : option string) (id : option json).

Record Store : Type := {
  socket : RealtimeSocket;
  subscriptions : gmap string (list string);
  jsonapiModelNames : gmap string string;
  (* the instances of [subscribeTask] performed so far, by their arguments *)
  subscribeTask : list (string * string);
  (* the calls of [pushPayload] and [deleteRecordTask.perform] so far *)
  host : list host_call;
  (* the calls of [Ember.Logger.error] so far, by their arguments *)
  logger : list (list string);
  (* how often the socket has called [onDisconnected] *)
  onDisconnected_calls : nat
}.

Definition set_socket (s : RealtimeSocket) (st : Store) : Store :=
  {| socket := s; subscriptions := subscriptions st;
     jsonapiModelNames := jsonapiModelNames st; subscribeTask := subscribeTask st;
     host := host st; logger := logger st;
     onDisconnected_calls := onDisconnected_calls st |}.
Definition set_subscriptions (m : gmap string (list string)) (st : Store) : Store :=
  {| socket := socket st; subscriptions := m;
     jsonapiModelNames := jsonapiModelNames st; subscribeTask := subscribeTask st;
     host := host st; logger := logger st;
     onDisconnected_calls := onDisconnected_calls st |}.
Definition set_jsonapiModelNames (m : gmap string string) (st : Store) : Store :=
  {| socket := socket st; subscriptions := subscriptions st;
     jsonapiModelNames := m; subscribeTask := subscribeTask st;
     host := host st; logger := logger st;
     onDisconnected_calls := onDisconnected_calls st |}.
Definition set_subscribeTask (l : list (string * string)) (st : Store) : Store :=
  {| socket := socket st; subscriptions := subscriptions st;
     jsonapiModelNames := jsonapiModelNames st; subscribeTask := l;
     host := host st; logger := logger st;
     onDisconnected_calls := onDisconnected_calls st |}.
Definition set_host (l : list host_call) (st : Store) : Store :=
  {| socket := socket st; subscriptions := subscriptions st;
     jsonapiModelNames := jsonapiModelNames st; subscribeTask := subscribeTask st;
     host := l; logger := logger st;
     onDisconnected_calls := onDisconnected_calls st |}.
Definition set_logger (l : list (list string)) (st : Store) : Store :=
  {| socket := socket st; subscriptions := subscriptions st;
     jsonapiModelNames := jsonapiModelNames st; subscribeTask := subscribeTask st;
     host := host st; logger := l;
     onDisconnected_calls := onDisconnected_calls st |}.
Definition set_onDisconnected_calls (n : nat) (st : Store) : Store :=
  {| socket := socket st; subscriptions := subscriptions st;
     jsonapiModelNames := jsonapiModelNames st; subscribeTask := subscribeTask st;
     host := host st; logger := logger st;
     onDisconnected_calls := n |}.

(** The mixin's [init]: empty registries and a socket. *)
Definition init : Store :=
  {| socket := RealtimeSocket_create;
     subscriptions := ∅;
     jsonapiModelNames := ∅;
     subscribeTask := [];
     host := [];
     logger := [];
     onDisconnected_calls := 0 |}.

(** What the transport and the host make happen. *)
Inductive event : Type :=
| SocketError (arguments : list string)
| SocketConnected
| SocketDisconnected
(* the promise [connectionMessage()] gave to instance [k] of
   [socketOnConnectedTask] resolves with a message, or rejects *)
| ConnectionMessage (k : nat) (result : option string)
(* instance [k] continues after the promise it waits for *)
| TaskResumed (k : nat)
| SocketMessage (message : string)
| SubscribeMessage (message : string)
| UpdatedMessage (message : string)
| DeletedMessage (message : string)
(* a round of [updateSocketStateTask], [socket.state()] returning [newState] *)
| PollTick (newState : string)
| Push (pushed : pushed_value).

(** [for (const model of models) body]: an exception ends the loop and
    leaves what the records before have done. *)
Fixpoint for_of (body : Model → Store → completion Store) (models : list Model)
    (this : Store) : completion unit * Store :=
  match models with
  | [] => (Normal tt, this)
  | model :: rest =>
      match body model this with
      | Normal this' => for_of body rest this'
      | Throw e => (Throw e, this)
      end
  end.

Section Mixin.
(** [UUID_v4 n] is what the call number [n] of [UUID.v4()] returns;
    [send] is its only caller. *)
Variable UUID_v4 : nat → string.
(** [adapterFor(modelName).pathForType(modelName)] *)
Variable pathForType : string → string.
Variable shouldSubscribe : Model → bool.

(** [subscribeTask.perform(modelName, id)] *)
Definition subscribeTask_perform (name id : string) (this : Store) : Store :=
  let jsonapiModelName := pathForType name in
  let this1 := set_jsonapiModelNames (<[jsonapiModelName := name]> (jsonapiModelNames this)) this in
  let uuid := UUID_v4 (length (promises (subscribeCementChannel (socket this1)))) in
  set_subscribeTask (subscribeTask this1 ++ [(name, id)])
    (set_socket (subscribe uuid jsonapiModelName id (socket this1)).2 this1).

(** The body of the loop of [_push], for one record.  [ids] is
    [subscriptions[modelName]], or [[]] in place of [undefined]; where
    the registry has no ids under the name but inherits a member by that
    name, [ids] is that member, [ids.includes] is [undefined], and calling
    it throws. *)
Definition track (model : Model) (this : Store) : completion Store :=
  if shouldSubscribe model then
    ids ← match subscriptions this !! modelName model with
          | Some ids => Normal ids
          | None =>
              if bool_decide (modelName model ∈ Object_prototype) then Throw TypeError
              else Normal []
          end;
    if bool_decide (record_id model ∈ ids) then
      Normal (set_subscriptions (<[modelName model := ids]> (subscriptions this)) this)
    else
      let this1 := if connected (socket this)
                   then subscribeTask_perform (modelName model) (record_id model) this
                   else this in
      Normal (set_subscriptions
                (<[modelName model := (ids ++ [record_id model])]> (subscriptions this1)) this1)
  else Normal this.

(** [_push], given what [this._super] returned: how it ends, and the
    state it leaves. *)
Definition _push (pushed : pushed_value) (this : Store) : completion pushed_value * Store :=
  match pushed with
  | PushedNull => (Normal pushed, this)
  | PushedOne internalModel =>
      let models := [getRecord internalModel] in
      ((for_of track models this).1 ≫= λ _, Normal pushed, (for_of track models this).2)
  | PushedArray internalModels =>
      let models := getRecord <$> internalModels in
      ((for_of track models this).1 ≫= λ _, Normal pushed, (for_of track models this).2)
  end.

(** The (modelName, id) pairs of a registry, as [onConnected] visits them:
    every own key, and every id under it.  The keys come in the order of
    the map, which need not be the order in which JavaScript enumerates
    them; the properties below are about which requests are made and how
    often, not about their order. *)
Definition pairs (subs : gmap string (list string)) : list (string * string) :=
  '(name, ids) ← map_to_list subs; (λ id, (name, id)) <$> ids.

Definition onConnected (this : Store) : Store :=
  foldl (λ st '(name, id), subscribeTask_perform name id st) this (pairs (subscriptions this)).

Definition onDisconnected (this : Store) : Store := this.

Definition onModelUpdated (jsonapiModelName id : option json) (payload : json)
    (this : Store) : Store :=
  let name := jsonapiModelNames this !! ToString_opt jsonapiModelName in
  set_host (host this ++ [pushPayload name payload]) this.

Definition onModelDeleted (jsonapiModelName id : option json) (this : Store) : Store :=
  let name := jsonapiModelNames this !! ToString_opt jsonapiModelName in
  set_host (host this ++ [deleteRecordTask name id]) this.

(** *** The socket's handlers, with the mixin's callbacks bound *)

Definition socketOnError (arguments : list string) (this : Store) : Store :=
  set_logger (logger this ++ [("socket error" : string) :: arguments]) this.

Definition socketOnConnected (this : Store) : Store :=
  set_socket (set_socketOnConnectedTask
                (socketOnConnectedTask (socket this) ++ [AwaitConnectionMessage])
                (socket this)) this.

Definition socketOnDisconnected (this : Store) : Store :=
  let this1 := set_socket (set_connected false (socket this)) this in
  onDisconnected (set_onDisconnected_calls (S (onDisconnected_calls this1)) this1).

(** [socketOnConnectedTask], from its first [yield] to its second. *)
Definition task_send (k : nat) (result : option string) (this : Store) : Store :=
  match socketOnConnectedTask (socket this) !! k with
  | Some AwaitConnectionMessage =>
      match result with
      | Some connectionMessage =>
          let '(p, s) := sendConnectionMessage connectionMessage (socket this) in
          set_socket (set_socketOnConnectedTask
                        (<[k := AwaitHandshake p]> (socketOnConnectedTask s)) s) this
      | None =>
          set_socket (set_socketOnConnectedTask
                        (<[k := Errored]> (socketOnConnectedTask (socket this)))
                        (socket this)) this
      end
  | _ => this
  end.

(** [socketOnConnectedTask], from its second [yield] to its end. *)
Definition task_finish (k : nat) (this : Store) : Store :=
  match socketOnConnectedTask (socket this) !! k with
  | Some (AwaitHandshake p) =>
      match handshakes (socket this) !! p with
      | Some (Resolved _) =>
          let s := set_socketOnConnectedTask
                     (<[k := Finished]> (socketOnConnectedTask (socket this)))
                     (socket this) in
          onConnected (set_socket (set_connected true s) this)
      | Some (Rejected _) =>
          set_socket (set_socketOnConnectedTask
                        (<[k := Errored]> (socketOnConnectedTask (socket this)))
                        (socket this)) this
      | _ => this
      end
  | _ => this
  end.

Definition _onModelDeleted (data : string) (this : Store) : completion Store :=
  message ← parse data;
  model ← get message "model";
  id ← get message "id";
  Normal (onModelDeleted model id this).

Definition _onModelUpdated (data : string) (this : Store) : completion Store :=
  message ← parse data;
  model ← get message "model";
  id ← get message "id";
  payload ← get message "payload";
  document ← parse (ToString_opt payload);
  Normal (onModelUpdated model id document this).

Definition step (ev : event) (this : Store) : completion Store :=
  match ev with
  | SocketError arguments => Normal (socketOnError arguments this)
  | SocketConnected => Normal (socketOnConnected this)
  | SocketDisconnected => Normal (socketOnDisconnected this)
  | ConnectionMessage k result => Normal (task_send k result this)
  | TaskResumed k => Normal (task_finish k this)
  | SocketMessage message => Normal (set_socket (socket_message message (socket this)) this)
  | SubscribeMessage message =>
      c ← onMessage message (subscribeCementChannel (socket this));
      Normal (set_socket (set_subscribeCementChannel c (socket this)) this)
  | UpdatedMessage message => _onModelUpdated message this
  | DeletedMessage message => _onModelDeleted message this
  | PollTick newState =>
      Normal (set_socket (updateSocketStateTask newState (socket this)) this)
  | Push pushed => (_push pushed this).1 ≫= λ _, Normal (_push pushed this).2
  end.

(** The state an event leaves.  An exception leaves the handlers of the
    channels before they have changed anything, and goes to the
    transport: the next event finds the state as it was.  An exception
    in [_push] goes to the caller of the store's [push], and the state is
    as the loop left it. *)
Definition after (ev : event) (this : Store) : Store :=
  match ev with
  | Push pushed => (_push pushed this).2
  | _ =>
      match step ev this with
      | Normal this' => this'
      | Throw _ => this
      end
  end.

Definition run (evs : list event) (this : Store) : Store :=
  foldl (flip after) this evs.

(** ** What the properties are stated with *)

(** The socket apart from its subscribe channel, and the store's record
    of what it did for the host. *)
Definition socket_rest (s : RealtimeSocket) :=
  (glue s, state s, connected s, socketOnConnectedTask s, handshakes s).
Definition store_rest (st : Store) :=
  (host st, logger st, onDisconnected_calls st).

(** Whether the registry holds the pair. *)
Definition tracked (st : Store) (name id : string) : Prop :=
  id ∈ default [] (subscriptions st !! name).

Global Instance tracked_dec st name id : Decision (tracked st name id) :=
  decide (id ∈ default [] (subscriptions st !! name)).

Definition subscribe_channel (st : Store) : CementChannel :=
  subscribeCementChannel (socket st).

(** The frame request number [n] puts on the subscribe channel. *)
Definition subscribe_frame (n : nat) (request : string * string) : string :=
  JSON_stringify
    (JObj [("id", JStr (UUID_v4 n));
           ("data", JStr (JSON_stringify
                            (JObj [("model", JStr (pathForType request.1));
                                   ("id", JStr request.2)])))]).

(** Performing [subscribeTask] for each request of a list, in order. *)
Definition perform_all (requests : list (string * string)) (st : Store) : Store :=
  foldl (λ st '(name, id), subscribeTask_perform name id st) st requests.

Definition registry_view (st : Store) :=
  (subscriptions st, subscribeTask st, connected (socket st),
   length (promises (subscribe_channel st)), channel (subscribe_channel st)).

(** The ids of a model name are distinct; a request was performed only
    for a tracked pair, and while connected for every tracked pair; the
    subscribe channel carries one frame for each request performed. *)
Definition registry_inv (st : Store) : Prop :=
  (∀ name ids, subscriptions st !! name = Some ids → NoDup ids) ∧
  (∀ name id, (name, id) ∈ subscribeTask st → tracked st name id) ∧
  (connected (socket st) = true →
   ∀ name id, tracked st name id → (name, id) ∈ subscribeTask st) ∧
  length (promises (subscribe_channel st)) = length (subscribeTask st) ∧
  channel (subscribe_channel st) = imap subscribe_frame (subscribeTask st).

(** The records of a pushed value, as [_push] takes them. *)
Definition records (pushed : pushed_value) : list Model :=
  match pushed with
  | PushedNull => []
  | PushedOne internalModel => [getRecord internalModel]
  | PushedArray internalModels => getRecord <$> internalModels
  end.

(** A record at which [_push] throws: it is to be subscribed, the
    registry has no ids under its model name, and the name is that of an
    inherited member. *)
Definition faults (st : Store) (model : Model) : bool :=
  shouldSubscribe model &&
  bool_decide (subscriptions st !! modelName model = None) &&
  bool_decide (modelName model ∈ Object_prototype).

(** The records the loop gets through: those before the first at which
    it throws. *)
Fixpoint handled (st : Store) (models : list Model) : list Model :=
  match models with
  | [] => []
  | model :: rest => if faults st model then [] else model :: handled st rest
  end.

(** Whether the event starts a handshake: an instance of
    [socketOnConnectedTask] that waits for its connection message is
    given one, and calls [sendConnectionMessage]. *)
Definition starts_handshake (ev : event) (st : Store) : bool :=
  match ev with
  | ConnectionMessage k (Some _) =>
      match socketOnConnectedTask (socket st) !! k with
      | Some AwaitConnectionMessage => true
      | _ => false
      end
  | _ => false
  end.

(** The events of one exchange: those that follow the start of a
    handshake, up to the start of the next one. *)
Fixpoint exchange (evs : list event) (st : Store) : list event :=
  match evs with
  | [] => []
  | ev :: rest => if starts_handshake ev st then [] else ev :: exchange rest (after ev st)
  end.

End Mixin.

(** *** The correlated channel as a transition system *)

(** What reaches a channel: a frame from the server, or a call of [send]
    (with the id [UUID.v4()] gave it). *)
Inductive channel_event : Type :=
| Received (message : string)
| Sent (id data : string).

Definition channel_after (ev : channel_event) (c : CementChannel) : CementChannel :=
  match ev with
  | Received message =>
      match onMessage message c with
      | Normal c' => c'
      | Throw _ => c
      end
  | Sent id data => (send id data c).2
  end.

Definition channel_run (evs : list channel_event) (c : CementChannel) : CementChannel :=
  foldl (flip channel_after) c evs.

(** The key under which [onMessage] looks a frame up: the string of its
    [id]; none if the frame does not parse or is [null]. *)
Definition frame_id (message : string) : option string :=
  match data ← parse message; _ ← get data "status"; id ← get data "id";
        Normal (ToString_opt id) with
  | Normal k => Some k
  | Throw _ => None
  end.

(** Whether the frame's [status] is the number 0. *)
Definition frame_success (message : string) : bool :=
  match data ← parse message; get data "status" with
  | Normal status => is_zero status
  | Throw _ => false
  end.

(** The decoded frame, as the promise receives it. *)
Definition frame_data (message : string) : value :=
  match JSON_parse message with
  | Some data => VJson data
  | None => VUndefined
  end.

(** The first frame received that carries [id]. *)
Fixpoint first_response (id : string) (evs : list channel_event) : option string :=
  match evs with
  | [] => None
  | Received message :: r =>
      if bool_decide (frame_id message = Some id) then Some message
      else first_response id r
  | Sent _ _ :: r => first_response id r
  end.

Definition verdict (id : string) (evs : list channel_event) : promise :=
  match first_response id evs with
  | None => Pending
  | Some message =>
      if frame_success message then Resolved (frame_data message)
      else Rejected (frame_data message)
  end.

(** Every pending entry names a promise that exists, and no two ids name
    the same promise. *)
Definition channel_wf (c : CementChannel) : Prop :=
  (∀ k p, cementMessages c !! k = Some p → p < length (promises c)) ∧
  (∀ k k' p, cementMessages c !! k = Some p → cementMessages c !! k' = Some p → k = k').

(** *** Handshakes and dispatch *)

Fixpoint disconnects (evs : list event) : nat :=
  match evs with
  | [] => 0
  | SocketDisconnected :: r => S (disconnects r)
  | _ :: r => disconnects r
  end.

Definition sentinel (message : string) : bool :=
  bool_decide (message = "CONNECTION_TIMEOUT") ||
  bool_decide (message = "CONNECTION_DISALLOWED") ||
  bool_decide (message = "CONNECTION_ACCEPTED").

(** The first sentinel among the messages of the main channel. *)
Fixpoint first_sentinel (evs : list event) : option string :=
  match evs with
  | [] => None
  | SocketMessage message :: r =>
      if sentinel message then Some message else first_sentinel r
  | _ :: r => first_sentinel r
  end.

(** What a sentinel makes of a pending handshake. *)
Definition reply_outcome (message : string) : promise :=
  if bool_decide (message = "CONNECTION_TIMEOUT") then
    Rejected (VError "Did not send a connection message in time")
  else if bool_decide (message = "CONNECTION_DISALLOWED") then
    Rejected (VError "Connection was not accepted")
  else Resolved VUndefined.

Definition handshake_verdict (evs : list event) : promise :=
  match first_sentinel evs with
  | None => Pending
  | Some message => reply_outcome message
  end.

(** The arguments of a call into the host; [None] is [undefined]. *)
Definition arguments (call : host_call) : list (option json) :=
  match call with
  | pushPayload name payload => [JStr <$> name; Some payload]
  | deleteRecordTask name id => [JStr <$> name; id]
  end.

(** The update frame of the scenario. *)
Definition article_frame : string :=
  text "{'model':'article','id':'1','payload':'{\'title\':\'x\'}'}".

Definition article_document : json := JObj [("title", JStr "x")].

(** ** A host and concrete inputs *)

Definition example_uuid (n : nat) : string := "uuid-" +:+ pretty n.

(** The adapter of the example names the model 'post' 'article' on the wire. *)
Definition example_pathForType (name : string) : string :=
  if bool_decide (name = "post") then "article" else name +:+ "s".

(** The mixin's own [shouldSubscribe]. *)
Definition shouldSubscribe_default (model : Model) : bool := true.

Definition example_after : event → Store → Store :=
  after example_uuid example_pathForType shouldSubscribe_default.
Definition example_run : list event → Store → Store :=
  run example_uuid example_pathForType shouldSubscribe_default.

(** A connection whose handshake is accepted; 'hi' is what the mixin's
    own [connectionMessage] resolves with. *)
Definition handshake (k : nat) : list event :=
  [SocketConnected; ConnectionMessage k (Some "hi");
   SocketMessage "CONNECTION_ACCEPTED"; TaskResumed k].

Definition post1 : InternalModel :=
  {| getRecord := {| modelName := "post"; record_id := "1" |} |}.
Definition post2 : InternalModel :=
  {| getRecord := {| modelName := "post"; record_id := "2" |} |}.

(** A record of a model named 'constructor'. *)
Definition constructor1 : InternalModel :=
  {| getRecord := {| modelName := "constructor"; record_id := "1" |} |}.

(** A second connection, without a disconnect before it, whose handshake
    is disallowed. *)
Definition disallowed (k : nat) : list event :=
  [SocketConnected; ConnectionMessage k (Some "hi");
   SocketMessage "CONNECTION_DISALLOWED"].

(** Connected, with one request pending for post 1. *)
Definition subscribed : Store :=
  example_run (handshake 0 ++ [Push (PushedOne post1)]) init.

Definition rejection_A : string := text "{'id':'A','status':1}".
Definition success_A : string := text "{'id':'A','status':0}".
(** A success frame with a member more, a number with a fraction. *)
Definition success_A_elapsed : string := text "{'id':'A','status':0,'elapsed':1.5}".
Definition success_B : string := text "{'id':'B','status':0}".

(** The reading on which any response will do: the promise resolves iff
    some frame with its id and status 0 arrives, and rejects iff some
    frame with its id and another status arrives. *)
Definition settled_by_any_response
    (c : CementChannel) (id data : string) (frames : list string) : Prop :=
  let outcome :=
    promises (channel_run (Received <$> frames) (send id data c).2) !! (send id data c).1 in
  ((∃ v, outcome = Some (Resolved v)) ↔
   ∃ m, m ∈ frames ∧ frame_id m = Some id ∧ frame_success m = true) ∧
  ((∃ e, outcome = Some (Rejected e)) ↔
   ∃ m, m ∈ frames ∧ frame_id m = Some id ∧ frame_success m = false).

(** The rounds of the polling task (one every 100 ms) in the 10000 ms of
    the [connectTimeout] given to glue, the only timeout the mixin
    configures. *)
Definition timeout_rounds : nat := 100.

(** A handshake that times out by itself: it has seen no sentinel, the
    timeout has passed, and the promise is rejected. *)
Definition handshake_times_out (st : Store) (p : nat) : Prop :=
  ∃ e, handshakes
         (socket (example_run (replicate timeout_rounds (PollTick "connected")) st)) !! p
       = Some (Rejected e).

Definition stray_frame : string := text "{'id':'nobody','status':0}".

Definition comment_deleted : string := text "{'model':'comment','id':'7'}".
Definition comment_updated : string :=
  text "{'model':'comment','id':'7','payload':'{\'title\':\'x\'}'}".

(** A disconnect that rejects every pending request. *)
Definition disconnect_rejects_pending (st : Store) : Prop :=
  ∀ id p,
    cementMessages (subscribe_channel st) !! id = Some p →
    promises (subscribe_channel st) !! p = Some Pending →
    ∃ e, promises (subscribe_channel (example_after SocketDisconnected st)) !! p
         = Some (Rejected e).

(** The reading on which the socket is never connected after a handshake
    that failed: when an instance of [socketOnConnectedTask] continues
    after a rejected handshake, the socket is not connected. *)
Definition not_connected_after_failed_handshake (st : Store) (k : nat) : Prop :=
  ∀ p e,
    socketOnConnectedTask (socket st) !! k = Some (AwaitHandshake p) →
    handshakes (socket st) !! p = Some (Rejected e) →
    connected (socket (example_after (TaskResumed k) st)) = false.

(** Some call into the host carries 'post', '1' and the decoded payload. *)
Definition update_handler_receives_id (st : Store) : Prop :=
  ∃ call, call ∈ host (example_after (UpdatedMessage article_frame) st) ∧
          arguments call = [Some (JStr "post"); Some (JStr "1"); Some article_document].

(** ** What the further properties are stated with *)

(** What [socket.state()] returned last, [s] if the task has not run. *)
Definition last_poll (evs : list event) (s : string) : string :=
  foldl (λ s ev, match ev with PollTick newState => newState | _ => s end) s evs.

(** The arguments of the error events, in order. *)
Fixpoint socket_errors (evs : list event) : list (list string) :=
  match evs with
  | [] => []
  | SocketError arguments :: r => arguments :: socket_errors r
  | _ :: r => socket_errors r
  end.

Fixpoint connects (evs : list event) : nat :=
  match evs with
  | [] => 0
  | SocketConnected :: r => S (connects r)
  | _ :: r => connects r
  end.

Section Further.
Variable UUID_v4 : nat → string.
Variable pathForType : string → string.
Variable shouldSubscribe : Model → bool.

(** Every entry is filed under the id that [UUID.v4()] gave to the call
    of [send] that made its promise, and that promise is pending. *)
Definition pending_entries (c : CementChannel) : Prop :=
  ∀ k p, cementMessages c !! k = Some p →
         k = UUID_v4 p ∧ promises c !! p = Some Pending.

(** Every pending promise has its entry. *)
Definition entries_complete (c : CementChannel) : Prop :=
  ∀ p, promises c !! p = Some Pending → cementMessages c !! UUID_v4 p = Some p.

(** A wire name is bound to a model name that the adapter gives that wire
    name and for which a request was performed; the wire name of every
    request performed is bound. *)
Definition bindings_inv (st : Store) : Prop :=
  (∀ wire name, jsonapiModelNames st !! wire = Some name →
                pathForType name = wire ∧ ∃ id, (name, id) ∈ subscribeTask st) ∧
  (∀ name id, (name, id) ∈ subscribeTask st →
              ∃ name', jsonapiModelNames st !! pathForType name = Some name' ∧
                       pathForType name' = pathForType name).

(** The body of the loop of [_push] in the earlier revision of the mixin
    (the unnamed source file): the request is performed whether or not
    the socket is connected, before the id is recorded. *)
Definition track_earlier (model : Model) (this : Store) : completion Store :=
  if shouldSubscribe model then
    ids ← match subscriptions this !! modelName model with
          | Some ids => Normal ids
          | None =>
              if bool_decide (modelName model ∈ Object_prototype) then Throw TypeError
              else Normal []
          end;
    if bool_decide (record_id model ∈ ids) then
      Normal (set_subscriptions (<[modelName model := ids]> (subscriptions this)) this)
    else
      let this1 := subscribeTask_perform UUID_v4 pathForType
                     (modelName model) (record_id model) this in
      Normal (set_subscriptions
                (<[modelName model := (ids ++ [record_id model])]> (subscriptions this1)) this1)
  else Normal this.

(** [_push] of the earlier revision, given what [this._super] returned. *)
Definition _push_earlier (pushed : pushed_value) (this : Store)
  : completion pushed_value * Store :=
  match pushed with
  | PushedNull => (Normal pushed, this)
  | PushedOne internalModel =>
      let models := [getRecord internalModel] in
      ((for_of track_earlier models this).1 ≫= λ _, Normal pushed,
       (for_of track_earlier models this).2)
  | PushedArray internalModels =>
      let models := getRecord <$> internalModels in
      ((for_of track_earlier models this).1 ≫= λ _, Normal pushed,
       (for_of track_earlier models this).2)
  end.

End Further.

(** An adapter that puts 'api-' before the model name. *)
Definition prefixed_pathForType (name : string) : string := "api-" +:+ name.

Definition success_uuid_0 : string := text "{'id':'uuid-0','status':0}".
Definition api_post_deleted : string := text "{'model':'api-post','id':'1'}".

(** * Properties *)

(** ** Promises settle once *)

Lemma length_settle p o ps : length (settle p o ps) = length ps.
Proof.
  unfold settle. destruct (ps !! p) as [[]|]; try done. by rewrite length_insert.
Qed.

Lemma settle_lookup_ne p q o ps : p ≠ q → settle p o ps !! q = ps !! q.
Proof.
  intros Hne. unfold settle. destruct (ps !! p) as [[]|]; try done.
  by rewrite list_lookup_insert_ne.
Qed.

Lemma settle_lookup_pending p o ps :
  ps !! p = Some Pending → settle p o ps !! p = Some o.
Proof.
  intros Hp. unfold settle. rewrite Hp.
  apply list_lookup_insert_eq. by eapply lookup_lt_Some.
Qed.

Lemma settle_lookup_settled p q o ps s :
  ps !! q = Some s → s ≠ Pending → settle p o ps !! q = Some s.
Proof.
  intros Hq Hs. destruct (decide (p = q)) as [->|Hne].
  - unfold settle. rewrite Hq. by destruct s.
  - by rewrite settle_lookup_ne.
Qed.

Lemma settle_inv p q o ps s :
  settle q o ps !! p = Some s →
  ps !! p = Some s ∨ (o = s ∧ q = p ∧ ps !! p = Some Pending).
Proof.
  destruct (decide (q = p)) as [->|Hne]; [|rewrite settle_lookup_ne by done; by left].
  destruct (ps !! p) as [[]|] eqn:Hp.
  - rewrite settle_lookup_pending by done. intros [= <-]. by right.
  - unfold settle. rewrite Hp, Hp. by left.
  - unfold settle. rewrite Hp, Hp. by left.
  - unfold settle. rewrite Hp, Hp. by left.
Qed.

(** ** The correlated channel *)

Lemma onMessage_Normal message c c' :
  onMessage message c = Normal c' →
  ∃ k p, frame_id message = Some k ∧ cementMessages c !! k = Some p ∧
         c' = {| cementMessages := delete k (cementMessages c);
                 channel := channel c;
                 promises := settle p (if frame_success message
                                       then Resolved (frame_data message)
                                       else Rejected (frame_data message)) (promises c) |}.
Proof.
  unfold onMessage, frame_id, frame_success, frame_data, parse.
  destruct (JSON_parse message) as [data|]; simpl; [|done].
  destruct (get data "status") as [status|]; simpl; [|done].
  destruct (get data "id") as [id|]; simpl; [|done].
  destruct (cementMessages c !! ToString_opt id) as [p|] eqn:Hp; [|done].
  intros [= <-]. exists (ToString_opt id), p. split_and!; try done.
  unfold resolve, reject. by destruct (is_zero status).
Qed.

Lemma onMessage_unmatched message c k :
  frame_id message = Some k → cementMessages c !! k = None →
  onMessage message c = Throw TypeError.
Proof.
  unfold onMessage, frame_id, parse.
  destruct (JSON_parse message) as [data|]; simpl; [|done].
  destruct (get data "status") as [status|]; simpl; [|done].
  destruct (get data "id") as [id|]; simpl; [|done].
  intros [= <-] Hk. by rewrite Hk.
Qed.

Lemma channel_wf_create : channel_wf CementChannel_create.
Proof. split; intros *; simpl; by rewrite lookup_empty. Qed.

Lemma channel_wf_send id data c : channel_wf c → channel_wf (send id data c).2.
Proof.
  intros [Hlt Hinj]. split; simpl.
  - intros k p. rewrite length_app; simpl. destruct (decide (id = k)) as [->|Hne].
    + rewrite lookup_insert_eq. intros [= <-]. lia.
    + rewrite lookup_insert_ne by done. intros Hk. apply Hlt in Hk. lia.
  - intros k k' p.
    destruct (decide (id = k)) as [Hk|Hk]; destruct (decide (id = k')) as [Hk'|Hk'];
      subst; rewrite ?lookup_insert_eq, ?lookup_insert_ne by done; try done.
    + intros [= <-] Hp. apply Hlt in Hp. lia.
    + intros Hp [= <-]. apply Hlt in Hp. lia.
    + apply Hinj.
Qed.

Lemma channel_wf_after ev c : channel_wf c → channel_wf (channel_after ev c).
Proof.
  intros Hwf. destruct ev as [message|id data]; simpl; [|by apply channel_wf_send].
  destruct (onMessage message c) as [c'|] eqn:Hm; [|done].
  apply onMessage_Normal in Hm as (k & p & _ & _ & ->).
  destruct Hwf as [Hlt Hinj]. split; simpl.
  - intros k0 p0 Hk0. rewrite length_settle.
    apply lookup_delete_Some in Hk0 as [_ Hk0]. by eapply Hlt.
  - intros k1 k2 p0 H1 H2.
    apply lookup_delete_Some in H1 as [_ H1]. apply lookup_delete_Some in H2 as [_ H2].
    by eapply Hinj.
Qed.

(** A settled promise keeps its state, whatever reaches the channel. *)
Lemma settled_stays evs c p s :
  promises c !! p = Some s → s ≠ Pending →
  promises (channel_run evs c) !! p = Some s.
Proof.
  revert c. induction evs as [|ev evs IH]; intros c Hp Hs; [done|].
  simpl. apply IH; [|done]. unfold flip.
  destruct ev as [message|id data]; simpl.
  - destruct (onMessage message c) as [c'|] eqn:Hm; [|done].
    apply onMessage_Normal in Hm as (k & q & _ & _ & ->); simpl.
    by apply settle_lookup_settled.
  - rewrite lookup_app_l; [done|]. by eapply lookup_lt_Some.
Qed.

(** A pending request is settled by the first frame that carries its id. *)
Lemma pending_verdict evs c id p :
  channel_wf c →
  cementMessages c !! id = Some p →
  promises c !! p = Some Pending →
  (∀ data, Sent id data ∉ evs) →
  promises (channel_run evs c) !! p = Some (verdict id evs).
Proof.
  revert c. induction evs as [|ev evs IH]; intros c Hwf Hid Hp Hfresh; [done|].
  assert (∀ data, Sent id data ∉ evs) as Hfresh'.
  { intros data Hin. apply (Hfresh data). by right. }
  pose proof (channel_wf_after ev c Hwf) as Hwf'.
  simpl. unfold flip. destruct ev as [message|id' data]; simpl in *.
  - unfold verdict; simpl.
    destruct (onMessage message c) as [c'|] eqn:Hm.
    + apply onMessage_Normal in Hm as (k & q & Hk & Hq & ->).
      rewrite Hk in *. case_bool_decide as Heq.
      * injection Heq as ->. rewrite Hid in Hq. injection Hq as <-.
        apply settled_stays; simpl.
        -- by apply settle_lookup_pending.
        -- by destruct (frame_success message).
      * assert (k ≠ id) as Hne by congruence.
        assert (q ≠ p) as Hqp.
        { intros ->. destruct Hwf as [_ Hinj]. by specialize (Hinj _ _ _ Hid Hq). }
        apply IH; simpl; try done.
        -- by rewrite lookup_delete_ne.
        -- by rewrite settle_lookup_ne.
    + case_bool_decide as Heq; [|by apply IH].
      exfalso. unfold onMessage, frame_id, parse in *.
      destruct (JSON_parse message) as [d|]; simpl in *; [|done].
      destruct (get d "status") as [status|]; simpl in *; [|done].
      destruct (get d "id") as [i|]; simpl in *; [|done].
      injection Heq as Heq. rewrite Heq, Hid in Hm. done.
  - assert (id' ≠ id) as Hne.
    { intros ->. apply (Hfresh data). by left. }
    change (verdict id (Sent id' data :: evs)) with (verdict id evs).
    apply IH; simpl; try done.
    + by rewrite lookup_insert_ne.
    + rewrite lookup_app_l; [done|]. by eapply lookup_lt_Some.
Qed.

Lemma send_verdict c id data evs :
  channel_wf c → (∀ d, Sent id d ∉ evs) →
  promises (channel_run evs (send id data c).2) !! (send id data c).1
  = Some (verdict id evs).
Proof.
  intros Hwf Hfresh. apply pending_verdict; try done.
  - by apply channel_wf_send.
  - simpl. apply lookup_insert_eq.
  - simpl. by rewrite lookup_app_r, Nat.sub_diag.
Qed.

Lemma verdict_app_other id evs message :
  frame_id message ≠ Some id →
  verdict id (evs ++ [Received message]) = verdict id evs.
Proof.
  intros Hne. unfold verdict. f_equal.
  induction evs as [|[m|i d] evs IH]; simpl.
  - by rewrite bool_decide_eq_false_2.
  - case_bool_decide; [done|]. apply IH.
  - apply IH.
Qed.

(** ** The store: what each operation leaves alone *)

Section Properties.
Variable UUID_v4 : nat → string.
Variable pathForType : string → string.
Variable shouldSubscribe : Model → bool.

Local Abbreviation subscribeTask_perform := (subscribeTask_perform UUID_v4 pathForType).
Local Abbreviation track := (track UUID_v4 pathForType shouldSubscribe).
Local Abbreviation _push := (_push UUID_v4 pathForType shouldSubscribe).
Local Abbreviation onConnected := (onConnected UUID_v4 pathForType).
Local Abbreviation task_finish := (task_finish UUID_v4 pathForType).
Local Abbreviation step := (step UUID_v4 pathForType shouldSubscribe).
Local Abbreviation after := (after UUID_v4 pathForType shouldSubscribe).
Local Abbreviation run := (run UUID_v4 pathForType shouldSubscribe).
Local Abbreviation subscribe_frame := (subscribe_frame UUID_v4 pathForType).
Local Abbreviation perform_all := (perform_all UUID_v4 pathForType).
Local Abbreviation registry_inv := (registry_inv UUID_v4 pathForType).
Local Abbreviation faults := (faults shouldSubscribe).
Local Abbreviation handled := (handled shouldSubscribe).
Local Abbreviation exchange := (exchange UUID_v4 pathForType shouldSubscribe).

Lemma perform_all_snoc requests name id st :
  perform_all (requests ++ [(name, id)]) st
  = subscribeTask_perform name id (perform_all requests st).
Proof. unfold perform_all. by rewrite foldl_app. Qed.

Lemma perform_all_frame requests st :
  subscriptions (perform_all requests st) = subscriptions st ∧
  socket_rest (socket (perform_all requests st)) = socket_rest (socket st) ∧
  store_rest (perform_all requests st) = store_rest st ∧
  subscribeTask (perform_all requests st) = subscribeTask st ++ requests ∧
  promises (subscribe_channel (perform_all requests st))
  = promises (subscribe_channel st) ++ replicate (length requests) Pending ∧
  channel (subscribe_channel (perform_all requests st))
  = channel (subscribe_channel st)
    ++ imap (λ n, subscribe_frame (length (promises (subscribe_channel st)) + n)) requests.
Proof.
  induction requests as [|[name id] requests IH] using rev_ind.
  - simpl. rewrite !app_nil_r. by split_and!.
  - rewrite perform_all_snoc.
    destruct IH as (IH1 & IH2 & IH3 & IH4 & IH5 & IH6).
    split_and!; try done; simpl.
    + by rewrite IH4, app_assoc.
    + unfold subscribe_channel in *.
      rewrite IH5, length_app, replicate_add, app_assoc. done.
    + unfold subscribe_channel in *. rewrite IH6, imap_app, <-app_assoc. simpl.
      by rewrite IH5, length_app, length_replicate, Nat.add_0_r.
Qed.

Lemma onConnected_perform_all st :
  onConnected st = perform_all (pairs (subscriptions st)) st.
Proof. done. Qed.

Lemma onConnected_frame st :
  glue (socket (onConnected st)) = glue (socket st) ∧
  connected (socket (onConnected st)) = connected (socket st) ∧
  socketOnConnectedTask (socket (onConnected st)) = socketOnConnectedTask (socket st) ∧
  handshakes (socket (onConnected st)) = handshakes (socket st) ∧
  subscriptions (onConnected st) = subscriptions st ∧
  onDisconnected_calls (onConnected st) = onDisconnected_calls st.
Proof.
  rewrite onConnected_perform_all.
  destruct (perform_all_frame (pairs (subscriptions st)) st) as (H1 & H2 & H3 & _).
  unfold socket_rest, store_rest in *.
  injection H2 as H21 H22 H23 H24 H25. injection H3 as H31 H32 H33. done.
Qed.

Lemma elem_of_pairs (subs : gmap string (list string)) name id :
  (name, id) ∈ pairs subs ↔ id ∈ default [] (subs !! name).
Proof.
  unfold pairs. rewrite list_elem_of_bind. split.
  - intros ([name' ids] & Hin & Hm). apply elem_of_map_to_list in Hm.
    apply list_elem_of_fmap in Hin as (i & [= -> ->] & Hi). by rewrite Hm.
  - intros Hin. destruct (subs !! name) as [ids|] eqn:Hm; simpl in Hin.
    + exists (name, ids). split; [|by apply elem_of_map_to_list].
      apply list_elem_of_fmap. by exists id.
    + by apply elem_of_nil in Hin.
Qed.

Lemma NoDup_pairs (subs : gmap string (list string)) :
  (∀ name ids, subs !! name = Some ids → NoDup ids) → NoDup (pairs subs).
Proof.
  intros Hids. unfold pairs. apply NoDup_bind.
  - intros [n1 l1] [n2 l2] [n i] H1 H2 Hi1 Hi2.
    apply list_elem_of_fmap in Hi1 as (? & [= -> ->] & _).
    apply list_elem_of_fmap in Hi2 as (? & [= <- _] & _).
    apply elem_of_map_to_list in H1, H2. congruence.
  - intros [n l] Hin. apply elem_of_map_to_list in Hin.
    apply NoDup_fmap_2; [|by eapply Hids]. by intros ?? [= ->].
  - apply NoDup_map_to_list.
Qed.

(** *** The registry and the requests sent *)

Lemma registry_inv_view st st' :
  registry_view st' = registry_view st → registry_inv st → registry_inv st'.
Proof.
  unfold registry_view, registry_inv, tracked, subscribe_channel.
  intros Hv Hinv. injection Hv as H1 H2 H3 H4 H5.
  rewrite H1, H2, H3, H4, H5. exact Hinv.
Qed.

Lemma registry_inv_init : registry_inv init.
Proof.
  unfold registry_inv, tracked. simpl. split_and!; try done.
  intros ?? Hin. by apply elem_of_nil in Hin.
Qed.

Lemma set_subscriptions_same st : set_subscriptions (subscriptions st) st = st.
Proof. by destruct st. Qed.

(** How the body of the loop ends: it throws, or it leaves the state as
    it was (the record is not to be subscribed, or its pair is in the
    registry), or it records the pair and, if connected, performs
    [subscribeTask] for it. *)
Lemma track_cases model st :
  (faults st model = true ∧ track model st = Throw TypeError) ∨
  (faults st model = false ∧ track model st = Normal st ∧
   (shouldSubscribe model = false ∨ tracked st (modelName model) (record_id model))) ∨
  (faults st model = false ∧ shouldSubscribe model = true ∧
   ¬ tracked st (modelName model) (record_id model) ∧
   track model st
   = Normal (set_subscriptions
               (<[modelName model :=
                    default [] (subscriptions st !! modelName model) ++ [record_id model]]>
                  (subscriptions st))
               (if connected (socket st)
                then subscribeTask_perform (modelName model) (record_id model) st
                else st))).
Proof.
  unfold faults, track, tracked.
  destruct (shouldSubscribe model); simpl; [|right; left; split_and!; [done..|by left]].
  destruct (subscriptions st !! modelName model) as [ids|] eqn:Hids; simpl.
  - right. case_bool_decide as Hin.
    + left. split_and!; [done| |by right].
      rewrite insert_id by done. by rewrite set_subscriptions_same.
    + right. split_and!; try done. by destruct (connected (socket st)).
  - case_bool_decide as Hproto; simpl; [by left|].
    right. right. split_and!; try done; [apply not_elem_of_nil|].
    by destruct (connected (socket st)).
Qed.

(** Registering a tracked pair changes nothing. *)
Lemma track_tracked model st :
  tracked st (modelName model) (record_id model) → track model st = Normal st.
Proof.
  intros Hin. by destruct (track_cases model st) as [[Hf Ht]|[(_ & Ht & _)|(_ & _ & Hnot & _)]];
    [unfold faults, tracked in *; destruct (subscriptions st !! modelName model);
       [by rewrite andb_false_r in Hf|by apply elem_of_nil in Hin]|..].
Qed.

Lemma track_skipped model st : shouldSubscribe model = false → track model st = Normal st.
Proof. unfold track. by intros ->. Qed.

Lemma track_throws model st : track model st = Throw TypeError ↔ faults st model = true.
Proof.
  destruct (track_cases model st) as [[Hf Ht]|[(Hf & Ht & _)|(Hf & _ & _ & Ht)]];
    rewrite Hf, Ht; done.
Qed.

Lemma tracked_insert st st1 name id n i :
  subscriptions st1 = subscriptions st →
  tracked
    (set_subscriptions
       (<[name := default [] (subscriptions st !! name) ++ [id]]> (subscriptions st)) st1)
    n i
  ↔ tracked st n i ∨ (n = name ∧ i = id).
Proof.
  intros Hsubs. unfold tracked; simpl. destruct (decide (name = n)) as [->|Hne].
  - rewrite lookup_insert_eq; simpl. rewrite elem_of_app, list_elem_of_singleton.
    intuition.
  - rewrite lookup_insert_ne by done. intuition congruence.
Qed.

(** What holds of the state before and after every record that the loop
    gets through holds of the state before and after the loop. *)
Lemma for_of_related (body : Model → Store → completion Store)
    (R : Store → Store → Prop) :
  (∀ s, R s s) →
  (∀ s1 s2 s3, R s1 s2 → R s2 s3 → R s1 s3) →
  (∀ model s s', body model s = Normal s' → R s s') →
  ∀ models st, R st (for_of body models st).2.
Proof.
  intros Hrefl Htrans Hstep. induction models as [|m models IH]; intros st; [apply Hrefl|].
  simpl. destruct (body m st) as [st'|e] eqn:Ht; [|apply Hrefl].
  eapply Htrans; [by eapply Hstep|apply IH].
Qed.

Lemma push_related (R : Store → Store → Prop) :
  (∀ s, R s s) →
  (∀ s1 s2 s3, R s1 s2 → R s2 s3 → R s1 s3) →
  (∀ model s s', track model s = Normal s' → R s s') →
  ∀ pushed st, R st (_push pushed st).2.
Proof.
  intros Hrefl Htrans Hstep pushed st. destruct pushed as [|im|ims]; [apply Hrefl|..].
  - exact (for_of_related track R Hrefl Htrans Hstep [getRecord im] st).
  - exact (for_of_related track R Hrefl Htrans Hstep (getRecord <$> ims) st).
Qed.

Lemma push_kept (P : Store → Prop) :
  (∀ model s s', P s → track model s = Normal s' → P s') →
  ∀ pushed st, P st → P (_push pushed st).2.
Proof.
  intros Hstep pushed st.
  apply (push_related (λ s s', P s → P s')); [done|by auto|]. intros m s s' Ht Hs.
  by eapply Hstep.
Qed.

Lemma registry_inv_track model st st' :
  registry_inv st → track model st = Normal st' → registry_inv st'.
Proof.
  intros Hinv Ht.
  destruct (track_cases model st) as [[_ Ht']|[(_ & Ht' & _)|(_ & Hshould & Hnot & Ht')]];
    rewrite Ht' in Ht; [done|by injection Ht as <-|]. injection Ht as <-.
  set (name := modelName model) in *. set (id := record_id model) in *.
  set (st1 := if connected (socket st) then subscribeTask_perform name id st else st).
  destruct Hinv as (Hnodup & Hsent & Hall & Hlen & Hchan).
  assert (subscriptions st1 = subscriptions st) as Hsubs.
  { unfold st1. by destruct (connected (socket st)). }
  assert (connected (socket st1) = connected (socket st)) as Hconn.
  { unfold st1. by destruct (connected (socket st)) eqn:Hc. }
  assert (subscribeTask st1
          = subscribeTask st ++ (if connected (socket st) then [(name, id)] else []))
    as Hlog.
  { unfold st1. destruct (connected (socket st)); simpl; [done|by rewrite app_nil_r]. }
  unfold registry_inv. split_and!.
  - simpl. intros n ids. destruct (decide (name = n)) as [<-|Hne].
    + rewrite lookup_insert_eq. intros [= <-]. apply NoDup_app. split_and!.
      * destruct (subscriptions st !! name) as [l|] eqn:Hl; simpl; [by eapply Hnodup|].
        constructor.
      * intros x Hx ->%list_elem_of_singleton. by apply Hnot.
      * apply NoDup_singleton.
    + rewrite lookup_insert_ne by done. apply Hnodup.
  - intros n i Hin. apply tracked_insert; [done|].
    simpl in Hin. rewrite Hlog in Hin. apply elem_of_app in Hin as [Hin|Hin].
    + left. by apply Hsent.
    + right. destruct (connected (socket st)).
      * by apply list_elem_of_singleton in Hin as [= -> ->].
      * by apply elem_of_nil in Hin.
  - simpl. rewrite Hconn. intros Hc n i Hin.
    apply (tracked_insert st st1 _ _ _ _ Hsubs) in Hin as [Hin|[-> ->]].
    + rewrite Hlog. apply elem_of_app. left. by apply Hall.
    + rewrite Hlog, Hc. apply elem_of_app. right. by apply list_elem_of_singleton.
  - simpl. unfold st1. destruct (connected (socket st)); [|done].
    unfold subscribe_channel in *. simpl. rewrite !length_app, Hlen. done.
  - simpl. unfold st1. destruct (connected (socket st)); [|done].
    unfold subscribe_channel in *. simpl. rewrite imap_app, Hchan, Hlen. simpl.
    by rewrite Nat.add_0_r.
Qed.

Lemma registry_inv_push pushed st : registry_inv st → registry_inv (_push pushed st).2.
Proof. apply push_kept. intros m s s' Hs Ht. by eapply registry_inv_track. Qed.

Lemma registry_inv_onConnected st0 st :
  registry_inv st0 →
  subscriptions st = subscriptions st0 →
  subscribeTask st = subscribeTask st0 →
  subscribe_channel st = subscribe_channel st0 →
  connected (socket st) = true →
  registry_inv (onConnected st).
Proof.
  intros (Hnodup & Hsent & _ & Hlen & Hchan) Hs Hl Hch Hc.
  rewrite <-Hch, <-Hl in Hlen, Hchan. unfold tracked in Hsent.
  rewrite <-Hs, <-Hl in Hsent. setoid_rewrite <-Hs in Hnodup.
  rewrite onConnected_perform_all.
  destruct (perform_all_frame (pairs (subscriptions st)) st)
    as (Hsubs & Hrest & _ & Hlog & Hlen' & Hchan').
  assert (connected (socket (perform_all (pairs (subscriptions st)) st)) = true) as Hc'.
  { unfold socket_rest in Hrest. injection Hrest as _ _ Hrest _ _. by rewrite Hrest. }
  unfold registry_inv, tracked. rewrite Hsubs, Hlog, Hlen', Hchan'. split_and!.
  - done.
  - intros n i [Hin|Hin]%elem_of_app; [by apply Hsent|by apply elem_of_pairs].
  - intros _ n i Hin. apply elem_of_app. right. by apply elem_of_pairs.
  - rewrite !length_app, length_replicate. lia.
  - rewrite imap_app, Hchan, Hlen. done.
Qed.

Lemma registry_inv_after ev st : registry_inv st → registry_inv (after ev st).
Proof.
  intros Hinv. unfold after, step.
  destruct ev as [args| | |k result|k|message|message|message|message|newState|pushed];
    simpl; try (by eapply registry_inv_view).
  - (* SocketDisconnected *)
    destruct Hinv as (H1 & H2 & _ & H4 & H5). by split_and!.
  - (* ConnectionMessage *)
    eapply registry_inv_view; [|done]. unfold task_send.
    destruct (socketOnConnectedTask (socket st) !! k) as [[]|]; try done.
    by destruct result.
  - (* TaskResumed *)
    unfold task_finish.
    destruct (socketOnConnectedTask (socket st) !! k) as [[|p| |]|]; try done.
    destruct (handshakes (socket st) !! p) as [[| |]|]; try done.
    by eapply registry_inv_onConnected.
  - (* SocketMessage *)
    eapply registry_inv_view; [|done]. unfold socket_message.
    by destruct (onMessageFunc (glue (socket st))).
  - (* SubscribeMessage *)
    destruct (onMessage message (subscribeCementChannel (socket st))) as [c|] eqn:Hm;
      simpl; [|done].
    apply onMessage_Normal in Hm as (k & p & _ & _ & ->).
    eapply registry_inv_view; [|done].
    unfold registry_view, subscribe_channel. simpl. by rewrite length_settle.
  - (* UpdatedMessage *)
    unfold _onModelUpdated.
    destruct (parse message) as [m|]; simpl; [|done].
    destruct (get m "model"); simpl; [|done].
    destruct (get m "id"); simpl; [|done].
    destruct (get m "payload"); simpl; [|done].
    destruct (parse _); simpl; [|done]. by eapply registry_inv_view.
  - (* DeletedMessage *)
    unfold _onModelDeleted.
    destruct (parse message) as [m|]; simpl; [|done].
    destruct (get m "model"); simpl; [|done].
    destruct (get m "id"); simpl; [|done]. by eapply registry_inv_view.
  - (* PollTick *)
    eapply registry_inv_view; [|done]. unfold updateSocketStateTask.
    by case_bool_decide.
  - (* Push *)
    by apply registry_inv_push.
Qed.

Lemma registry_inv_run evs st : registry_inv st → registry_inv (run evs st).
Proof.
  revert st. induction evs as [|ev evs IH]; intros st Hinv; [done|].
  simpl. apply IH. by apply registry_inv_after.
Qed.

Lemma run_app evs1 evs2 st : run (evs1 ++ evs2) st = run evs2 (run evs1 st).
Proof. unfold run. apply foldl_app. Qed.

Lemma run_cons ev evs st : run (ev :: evs) st = run evs (after ev st).
Proof. done. Qed.

(** What [track] leaves alone, and what it only extends. *)
Lemma track_frame model st st' :
  track model st = Normal st' →
  socket_rest (socket st') = socket_rest (socket st) ∧
  store_rest st' = store_rest st ∧
  subscribeTask st `prefix_of` subscribeTask st' ∧
  channel (subscribe_channel st) `prefix_of` channel (subscribe_channel st') ∧
  promises (subscribe_channel st) `prefix_of` promises (subscribe_channel st') ∧
  (∀ n i, tracked st n i → tracked st' n i).
Proof.
  intros Ht.
  destruct (track_cases model st) as [[_ Ht']|[(_ & Ht' & _)|(_ & Hshould & Hnot & Ht')]];
    rewrite Ht' in Ht; [done|by injection Ht as <-|]. injection Ht as <-.
  destruct (connected (socket st)) eqn:Hc; simpl.
  - split_and!; try done; try (by eexists).
    intros n i Hni. apply tracked_insert; [done|]. by left.
  - split_and!; try done.
    intros n i Hni.
    apply (tracked_insert st st (modelName model) (record_id model) n i eq_refl).
    by left.
Qed.

Lemma push_frame pushed st :
  socket_rest (socket (_push pushed st).2) = socket_rest (socket st) ∧
  store_rest (_push pushed st).2 = store_rest st ∧
  subscribeTask st `prefix_of` subscribeTask (_push pushed st).2 ∧
  channel (subscribe_channel st) `prefix_of` channel (subscribe_channel (_push pushed st).2) ∧
  promises (subscribe_channel st) `prefix_of` promises (subscribe_channel (_push pushed st).2) ∧
  (∀ n i, tracked st n i → tracked (_push pushed st).2 n i).
Proof.
  apply (push_related (λ s s',
    socket_rest (socket s') = socket_rest (socket s) ∧
    store_rest s' = store_rest s ∧
    subscribeTask s `prefix_of` subscribeTask s' ∧
    channel (subscribe_channel s) `prefix_of` channel (subscribe_channel s') ∧
    promises (subscribe_channel s) `prefix_of` promises (subscribe_channel s') ∧
    (∀ n i, tracked s n i → tracked s' n i))).
  - done.
  - intros s1 s2 s3 (A1 & A2 & A3 & A4 & A5 & A6) (B1 & B2 & B3 & B4 & B5 & B6).
    split_and!; [congruence|congruence|by etrans|by etrans|by etrans|auto].
  - intros m s s'. apply track_frame.
Qed.

(** The registry only grows. *)
Lemma tracked_after ev st n i : tracked st n i → tracked (after ev st) n i.
Proof.
  intros Hin. unfold after, step.
  destruct ev as [args| | |k result|k|message|message|message|message|newState|pushed];
    simpl; try done.
  - unfold task_send. destruct (socketOnConnectedTask (socket st) !! k) as [[]|]; try done.
    by destruct result.
  - unfold task_finish.
    destruct (socketOnConnectedTask (socket st) !! k) as [[|p| |]|]; try done.
    destruct (handshakes (socket st) !! p) as [[| |]|]; try done.
    unfold tracked. rewrite onConnected_perform_all.
    by rewrite (proj1 (perform_all_frame _ _)).
  - by destruct (onMessage message (subscribeCementChannel (socket st))).
  - unfold _onModelUpdated.
    destruct (parse message) as [m|]; simpl; [|done].
    destruct (get m "model"); simpl; [|done].
    destruct (get m "id"); simpl; [|done].
    destruct (get m "payload"); simpl; [|done].
    by destruct (parse _).
  - unfold _onModelDeleted.
    destruct (parse message) as [m|]; simpl; [|done].
    destruct (get m "model"); simpl; [|done].
    by destruct (get m "id").
  - by apply push_frame.
Qed.

Lemma tracked_run evs st n i : tracked st n i → tracked (run evs st) n i.
Proof.
  revert st. induction evs as [|ev evs IH]; intros st Hin; [done|].
  simpl. apply IH. by apply tracked_after.
Qed.





(** Frames on the subscribe channel neither add nor remove a request. *)
Lemma responses_keep_requests frames st :
  subscribeTask (run (SubscribeMessage <$> frames) st) = subscribeTask st ∧
  channel (subscribe_channel (run (SubscribeMessage <$> frames) st))
  = channel (subscribe_channel st).
Proof.
  revert st. induction frames as [|m frames IH]; intros st; [done|].
  rewrite fmap_cons, run_cons.
  destruct (IH (after (SubscribeMessage m) st)) as [-> ->].
  unfold after, step. simpl.
  destruct (onMessage m (subscribeCementChannel (socket st))) as [c|] eqn:Hm;
    simpl; [|done].
  by apply onMessage_Normal in Hm as (k & p & _ & _ & ->).
Qed.

(** ** The claims *)

(** C1, as amended.  Once [send] has returned its promise, and as long as
    no later [send] is given the same id, the promise is settled by the
    first frame received that carries its id, and by no other: it
    resolves with the decoded frame iff that frame's status is the number
    0, it rejects with the decoded frame iff that frame's status is
    anything else, and it stays pending iff no frame carries its id.  A
    frame carrying another id leaves the promise as it was, so the
    response to one of two concurrent calls never settles the other's
    promise. *)
Theorem send_settled_by_first_response
    (c : CementChannel) (id data : string) (evs : list channel_event) :
  channel_wf c →
  (∀ d, Sent id d ∉ evs) →
  let outcome evs :=
    promises (channel_run evs (send id data c).2) !! (send id data c).1 in
  (∀ v, outcome evs = Some (Resolved v) ↔
        ∃ m, first_response id evs = Some m ∧ frame_success m = true ∧ v = frame_data m) ∧
  (∀ e, outcome evs = Some (Rejected e) ↔
        ∃ m, first_response id evs = Some m ∧ frame_success m = false ∧ e = frame_data m) ∧
  (outcome evs = Some Pending ↔ first_response id evs = None) ∧
  (∀ m, frame_id m ≠ Some id → outcome (evs ++ [Received m]) = outcome evs).
Proof.
  intros Hwf Hfresh outcome.
  assert (outcome evs = Some (verdict id evs)) as Hout by by apply send_verdict.
  split_and!.
  - intros v. rewrite Hout. unfold verdict.
    destruct (first_response id evs) as [m|]; [|split; [done|by intros (? & ? & _)]].
    destruct (frame_success m) eqn:Hs; split.
    + intros [= <-]. by exists m.
    + intros (? & [= <-] & _ & ->). done.
    + done.
    + intros (? & [= <-] & ? & _). congruence.
  - intros e. rewrite Hout. unfold verdict.
    destruct (first_response id evs) as [m|]; [|split; [done|by intros (? & ? & _)]].
    destruct (frame_success m) eqn:Hs; split.
    + done.
    + intros (? & [= <-] & ? & _). congruence.
    + intros [= <-]. by exists m.
    + intros (? & [= <-] & _ & ->). done.
  - rewrite Hout. unfold verdict.
    destruct (first_response id evs) as [m|]; [|done].
    by destruct (frame_success m).
  - intros m Hm. rewrite Hout. unfold outcome. rewrite send_verdict; [|done|].
    + by rewrite verdict_app_other.
    + intros d [Hin|Hin]%elem_of_app; [by eapply Hfresh|].
      by apply list_elem_of_singleton in Hin.
Qed.

(** C5.  A frame whose id matches no pending request makes [onMessage]
    throw a [TypeError] (it reads [resolve] or [reject] of [undefined]):
    nothing is logged, and the handler does not return. *)
Theorem unmatched_frame_throws (message : string) (c : CementChannel) (k : string) :
  frame_id message = Some k →
  cementMessages c !! k = None →
  onMessage message c = Throw TypeError ∧
  ∀ st, subscribe_channel st = c →
        step (SubscribeMessage message) st = Throw TypeError ∧
        after (SubscribeMessage message) st = st.
Proof.
  intros Hk Hc. pose proof (onMessage_unmatched message c k Hk Hc) as Hm.
  split; [done|]. intros st <-. unfold after, step, subscribe_channel in *.
  by rewrite Hm.
Qed.

(** C2.  When an instance of [socketOnConnectedTask] continues after its
    handshake was accepted (so also after a disconnect and a reconnect),
    the socket is marked connected and [onConnected] performs
    [subscribeTask] once for every pair of the registry, whether or not a
    request was performed for it before: each request puts one frame on
    the subscribe channel and has a pending promise of its own.  Whatever
    frames answer them afterwards, rejections included, the requests made
    stay as they are. *)
Theorem replay_subscribes_each_tracked_pair_once
    (evs : list event) (k p : nat) (v : value) :
  let st := run evs init in
  let st' := after (TaskResumed k) st in
  let replayed := pairs (subscriptions st) in
  socketOnConnectedTask (socket st) !! k = Some (AwaitHandshake p) →
  handshakes (socket st) !! p = Some (Resolved v) →
  connected (socket st') = true ∧
  subscribeTask st' = subscribeTask st ++ replayed ∧
  NoDup replayed ∧
  (∀ name id, (name, id) ∈ replayed ↔ tracked st name id) ∧
  channel (subscribe_channel st')
  = channel (subscribe_channel st)
    ++ imap (λ n, subscribe_frame (length (subscribeTask st) + n)) replayed ∧
  promises (subscribe_channel st')
  = promises (subscribe_channel st) ++ replicate (length replayed) Pending ∧
  (∀ frames,
     subscribeTask (run (SubscribeMessage <$> frames) st') = subscribeTask st' ∧
     channel (subscribe_channel (run (SubscribeMessage <$> frames) st'))
     = channel (subscribe_channel st')).
Proof.
  intros st st' replayed Hk Hp.
  pose proof (registry_inv_run evs init registry_inv_init) as (Hnodup & _ & _ & Hlen & _).
  fold st in Hnodup, Hlen.
  assert (st' = onConnected
                  (set_socket
                     (set_connected true
                        (set_socketOnConnectedTask
                           (<[k := Finished]> (socketOnConnectedTask (socket st)))
                           (socket st))) st)) as ->.
  { unfold st', after, step, task_finish. by rewrite Hk, Hp. }
  rewrite onConnected_perform_all. simpl subscriptions. fold replayed.
  match goal with |- context [perform_all replayed ?s] =>
    destruct (perform_all_frame replayed s) as (_ & Hrest & _ & Hlog & Hprom & Hchan)
  end.
  split_and!.
  - unfold socket_rest in Hrest. injection Hrest as _ _ Hrest _ _. by rewrite Hrest.
  - by rewrite Hlog.
  - by apply NoDup_pairs.
  - intros name id. apply elem_of_pairs.
  - rewrite Hchan. unfold subscribe_channel in *. simpl. by rewrite Hlen.
  - by rewrite Hprom.
  - intros frames. apply responses_keep_requests.
Qed.

Section Loop.
Variable body : Model → Store → completion Store.
Variable performs : Store → bool.
Hypothesis body_cases : ∀ model st,
  (faults st model = true ∧ body model st = Throw TypeError) ∨
  (faults st model = false ∧ body model st = Normal st ∧
   (shouldSubscribe model = false ∨ tracked st (modelName model) (record_id model))) ∨
  (faults st model = false ∧ shouldSubscribe model = true ∧
   ¬ tracked st (modelName model) (record_id model) ∧
   body model st
   = Normal (set_subscriptions
               (<[modelName model :=
                    default [] (subscriptions st !! modelName model) ++ [record_id model]]>
                  (subscriptions st))
               (if performs st
                then subscribeTask_perform (modelName model) (record_id model) st
                else st))).
Hypothesis performs_kept : ∀ st subs name id,
  performs (set_subscriptions subs
              (if performs st then subscribeTask_perform name id st else st))
  = performs st.

Lemma body_keeps_faults model st st' m :
  body model st = Normal st' → faults st' m = faults st m.
Proof.
  intros Hb.
  destruct (body_cases model st) as [[_ Hb']|[(_ & Hb' & _)|(Hf & Hshould & Hnot & Hb')]];
    rewrite Hb' in Hb; [done|by injection Hb as <-|]. injection Hb as <-.
  unfold faults in *. simpl.
  destruct (decide (modelName model = modelName m)) as [Heq|Hne].
  - rewrite Heq, lookup_insert_eq. rewrite Hshould in Hf. simpl in Hf.
    rewrite Heq in Hf.
    rewrite (bool_decide_eq_false_2 (Some _ = None)) by done.
    rewrite andb_false_r. simpl.
    destruct (shouldSubscribe m); [|done]. simpl.
    destruct (subscriptions st !! modelName m) eqn:Hm; simpl.
    + done.
    + rewrite (bool_decide_eq_true_2 (None = None)) in Hf by done. simpl in Hf. done.
  - by rewrite lookup_insert_ne.
Qed.

Lemma for_of_handled_eq models st st' model :
  body model st = Normal st' → handled st' models = handled st models.
Proof.
  intros Hb. induction models as [|m models IH]; [done|]. simpl.
  by rewrite (body_keeps_faults model st st' m Hb), IH.
Qed.

Lemma for_of_outcome models st :
  ((for_of body models st).1 = Normal tt ∧ ∀ m, m ∈ models → faults st m = false) ∨
  ((for_of body models st).1 = Throw TypeError ∧ ∃ m, m ∈ models ∧ faults st m = true).
Proof.
  revert st. induction models as [|model models IH]; intros st.
  - left. split; [done|]. intros m Hin. by apply elem_of_nil in Hin.
  - simpl.
    destruct (body_cases model st) as [[Hf Hb]|Hb].
    + rewrite Hb. right. split; [done|]. exists model. split; [by left|done].
    + assert (∃ st', faults st model = false ∧ body model st = Normal st')
        as (st' & Hf & Hb').
      { destruct Hb as [(Hf & Hb & _)|(Hf & _ & _ & Hb)]; by eexists. }
      rewrite Hb'. destruct (IH st') as [[Hn Hall]|[Ht (m & Hin & Hm)]].
      * left. split; [done|]. intros m [->|Hin]%elem_of_cons; [done|].
        rewrite <-(body_keeps_faults model st st' m Hb'). by apply Hall.
      * right. split; [done|]. exists m. split; [by right|].
        by rewrite <-(body_keeps_faults model st st' m Hb').
Qed.

(** What the loop makes of the registry and of the subscribe channel. *)
Lemma for_of_registers models st :
  ∃ added,
    NoDup added ∧
    (∀ n i, (n, i) ∈ added ↔
            ¬ tracked st n i ∧
            ∃ m, m ∈ handled st models ∧ shouldSubscribe m = true ∧
                 modelName m = n ∧ record_id m = i) ∧
    (∀ n i, tracked (for_of body models st).2 n i ↔ tracked st n i ∨ (n, i) ∈ added) ∧
    subscribeTask (for_of body models st).2
    = subscribeTask st ++ (if performs st then added else []) ∧
    channel (subscribe_channel (for_of body models st).2)
    = channel (subscribe_channel st)
      ++ imap (λ k, subscribe_frame (length (promises (subscribe_channel st)) + k))
           (if performs st then added else []) ∧
    promises (subscribe_channel (for_of body models st).2)
    = promises (subscribe_channel st)
      ++ replicate (length (if performs st then added else [])) Pending.
Proof.
  revert st. induction models as [|model models IH]; intros st.
  - exists []. simpl. destruct (performs st); simpl; rewrite ?app_nil_r.
    all: split_and!; try done; try apply NoDup_nil_2.
    all: try (intros n i; split; [by intros ?%elem_of_nil|by intros (_ & m & ?%elem_of_nil & _)]).
    all: intros n i; split; [by left|by intros [?|?%elem_of_nil]].
  - simpl.
    destruct (body_cases model st) as [[Hf Hb]|[(Hf & Hb & Hskip)|(Hf & Hshould & Hnot & Hb)]];
      rewrite Hb, Hf.
    + exists []. simpl. destruct (performs st); simpl; rewrite ?app_nil_r.
      all: split_and!; try done; try apply NoDup_nil_2.
      all: try (intros n i; split; [by intros ?%elem_of_nil|by intros (_ & m & ?%elem_of_nil & _)]).
      all: intros n i; split; [by left|by intros [?|?%elem_of_nil]].
    + destruct (IH st) as (added & Hnodup & Hadded & Htracked & Hlog & Hchan & Hprom).
      exists added. split_and!; try done. intros n i. rewrite Hadded. split.
      * intros (Hn & m & Hin & Hm). split; [done|]. exists m. split; [by right|done].
      * intros (Hn & m & [->|Hin]%elem_of_cons & Hs & <- & <-).
        -- destruct Hskip; [congruence|done].
        -- split; [done|]. by exists m.
    + set (name := modelName model) in *. set (id := record_id model) in *.
      match goal with |- context [for_of body models ?s] => set (st1 := s) in * end.
      assert (∀ n i, tracked st1 n i ↔ tracked st n i ∨ (n = name ∧ i = id)) as Hst1.
      { intros n i. apply tracked_insert. by destruct (performs st). }
      assert (performs st1 = performs st) as Hperf by apply performs_kept.
      destruct (IH st1) as (added & Hnodup & Hadded & Htracked & Hlog & Hchan & Hprom).
      rewrite (for_of_handled_eq models st st1 model Hb) in Hadded.
      rewrite Hperf in Hlog, Hchan, Hprom.
      exists ((name, id) :: added). split_and!.
      * apply NoDup_cons. split; [|done]. intros Hin. apply Hadded in Hin as [Hin _].
        apply Hin, Hst1. by right.
      * intros n i. rewrite elem_of_cons, Hadded. split.
        -- intros [[= -> ->]|(Hn & m & Hin & Hm)].
           ++ split; [done|]. exists model. split; [by left|done].
           ++ split; [intros Hold; apply Hn, Hst1; by left|].
              exists m. split; [by right|done].
        -- intros (Hn & m & Hin & Hs & Hmn & Hmi).
           destruct (decide ((n, i) = (name, id))) as [Heq|Hne]; [by left|]. right.
           split; [intros [Hold|[-> ->]]%Hst1; done|].
           apply elem_of_cons in Hin as [->|Hin]; [by subst|]. by exists m.
      * intros n i. rewrite Htracked, Hst1, elem_of_cons. split.
        -- intros [[?|[-> ->]]|?]; [by left|right; by left|right; by right].
        -- intros [?|[[= -> ->]|?]]; [left; by left|left; by right|by right].
      * rewrite Hlog. unfold st1. destruct (performs st); simpl; [|done].
        by rewrite <-app_assoc.
      * rewrite Hchan. unfold st1, subscribe_channel. destruct (performs st); simpl; [|done].
        rewrite <-app_assoc. simpl. rewrite length_app. simpl. f_equal. f_equal.
        -- by rewrite Nat.add_0_r.
        -- apply imap_ext. intros k x _. simpl. f_equal. lia.
      * rewrite Hprom. unfold st1, subscribe_channel. destruct (performs st); simpl; [|done].
        by rewrite <-app_assoc.
Qed.

Lemma body_done model st :
  shouldSubscribe model = false ∨ tracked st (modelName model) (record_id model) →
  body model st = Normal st.
Proof.
  intros Hdone.
  destruct (body_cases model st) as [[Hf Hb]|[(_ & Hb & _)|(_ & Hshould & Hnot & _)]].
  - unfold faults, tracked in *. destruct Hdone as [Hs|Hin].
    + by rewrite Hs in Hf.
    + destruct (subscriptions st !! modelName model); [|by apply elem_of_nil in Hin].
      by rewrite andb_false_r in Hf.
  - done.
  - destruct Hdone; [congruence|done].
Qed.

Lemma for_of_tracked models st n i :
  tracked st n i → tracked (for_of body models st).2 n i.
Proof.
  intros Hin. destruct (for_of_registers models st) as (added & _ & _ & Htracked & _).
  apply Htracked. by left.
Qed.


(** The loop run once more over the same records ends in the same way
    and changes nothing. *)
Lemma for_of_again models st :
  for_of body models (for_of body models st).2 = for_of body models st.
Proof.
  revert st. induction models as [|model models IH]; intros st; [done|]. simpl.
  destruct (body_cases model st) as [[Hf Hb]|[(Hf & Hb & Hskip)|(Hf & Hshould & Hnot & Hb)]];
    rewrite Hb.
  - simpl. by rewrite Hb.
  - simpl. rewrite body_done.
    + apply IH.
    + destruct Hskip as [?|Hin]; [by left|right]. by apply for_of_tracked.
  - match goal with |- context [for_of body models ?s] => set (st1 := s) in * end.
    simpl. rewrite body_done; [apply IH|]. right. apply for_of_tracked.
    apply tracked_insert; [by destruct (performs st)|]. by right.
Qed.

End Loop.

Lemma track_performs_kept st subs name id :
  connected
    (socket (set_subscriptions subs
               (if connected (socket st) then subscribeTask_perform name id st else st)))
  = connected (socket st).
Proof. by destruct (connected (socket st)) eqn:Hc. Qed.

Lemma push_for_of pushed st :
  _push pushed st
  = ((for_of track (records pushed) st).1 ≫= λ _, Normal pushed,
     (for_of track (records pushed) st).2).
Proof. by destruct pushed. Qed.




(** C10.  [_push] returns what the store's own [_push] returned unless a
    pushed record that is to be subscribed has a model name under which
    the registry has no ids and which is the name of a member every
    object inherits ('constructor', 'toString', ...): there it throws a
    [TypeError] in place of returning.  Either way it touches, of the
    state, only the registry and, through [subscribeTask], the model-name
    map and the subscribe channel, to which it only adds: the rest of the
    socket and what the host has received stay as they were, and a [null]
    result changes nothing at all. *)
Theorem push_throws_on_an_inherited_model_name (pushed : pushed_value) (st : Store) :
  ((_push pushed st).1 = Normal pushed ↔ ∀ m, m ∈ records pushed → faults st m = false) ∧
  ((_push pushed st).1 = Throw TypeError ↔ ∃ m, m ∈ records pushed ∧ faults st m = true) ∧
  (step (Push pushed) st = Throw TypeError ↔ ∃ m, m ∈ records pushed ∧ faults st m = true) ∧
  (∀ internalModel,
     shouldSubscribe (getRecord internalModel) = true →
     modelName (getRecord internalModel) ∈ Object_prototype →
     subscriptions st !! modelName (getRecord internalModel) = None →
     _push (PushedOne internalModel) st = (Throw TypeError, st)) ∧
  socket_rest (socket (_push pushed st).2) = socket_rest (socket st) ∧
  store_rest (_push pushed st).2 = store_rest st ∧
  subscribeTask st `prefix_of` subscribeTask (_push pushed st).2 ∧
  channel (subscribe_channel st) `prefix_of` channel (subscribe_channel (_push pushed st).2) ∧
  promises (subscribe_channel st) `prefix_of` promises (subscribe_channel (_push pushed st).2) ∧
  (pushed = PushedNull → _push pushed st = (Normal pushed, st)).
Proof.
  destruct (push_frame pushed st) as (P1 & P2 & P3 & P4 & P5 & _).
  assert (((_push pushed st).1 = Normal pushed ∧
           ∀ m, m ∈ records pushed → faults st m = false) ∨
          ((_push pushed st).1 = Throw TypeError ∧
           ∃ m, m ∈ records pushed ∧ faults st m = true)) as Hout.
  { rewrite push_for_of. simpl.
    destruct (for_of_outcome track (λ s, connected (socket s)) track_cases
                (records pushed) st)
      as [[-> Hnone]|[-> Hsome]]; [by left|by right]. }
  split_and!; try done.
  - destruct Hout as [[Ho Hnone]|[Ho (m & Hin & Hm)]]; [done|]. rewrite Ho. split; [done|].
    intros Hnone. specialize (Hnone m Hin). congruence.
  - destruct Hout as [[Ho Hnone]|[Ho Hsome]]; [|done]. rewrite Ho. split; [done|].
    intros (m & Hin & Hm). specialize (Hnone m Hin). congruence.
  - unfold step. destruct Hout as [[Ho Hnone]|[Ho Hsome]]; rewrite Ho; simpl; [|done].
    split; [done|]. intros (m & Hin & Hm). specialize (Hnone m Hin). congruence.
  - intros im Hs Hname Hnone. simpl.
    assert (track (getRecord im) st = Throw TypeError) as ->; [|done].
    apply track_throws. unfold faults.
    by rewrite Hs, !bool_decide_eq_true_2.
  - by intros ->.
Qed.

(** *** The handshake and the connected flag *)

(** Only the start of a handshake and the messages of the main channel
    touch the glue socket and the handshake promises. *)
Lemma socket_rest_after ev st :
  starts_handshake ev st = false → (∀ m, ev ≠ SocketMessage m) →
  glue (socket (after ev st)) = glue (socket st) ∧
  handshakes (socket (after ev st)) = handshakes (socket st).
Proof.
  intros Hcm Hsm. unfold after, step.
  destruct ev as [args| | |k result|k|message|message|message|message|newState|pushed];
    simpl; try done.
  - unfold task_send. simpl in Hcm.
    destruct (socketOnConnectedTask (socket st) !! k) as [[]|]; try done.
    by destruct result.
  - unfold task_finish.
    destruct (socketOnConnectedTask (socket st) !! k) as [[|p| |]|]; try done.
    destruct (handshakes (socket st) !! p) as [[| |]|]; try done.
    match goal with |- context [onConnected ?s] =>
      destruct (onConnected_frame s) as (-> & _ & _ & -> & _)
    end.
    done.
  - by destruct (Hsm message).
  - by destruct (onMessage message (subscribeCementChannel (socket st))).
  - unfold _onModelUpdated.
    destruct (parse message) as [m|]; simpl; [|done].
    destruct (get m "model"); simpl; [|done].
    destruct (get m "id"); simpl; [|done].
    destruct (get m "payload"); simpl; [|done].
    by destruct (parse _).
  - unfold _onModelDeleted.
    destruct (parse message) as [m|]; simpl; [|done].
    destruct (get m "model"); simpl; [|done].
    by destruct (get m "id").
  - unfold updateSocketStateTask. by case_bool_decide.
  - destruct (push_frame pushed st) as (Hrest & _).
    unfold socket_rest in Hrest. by injection Hrest as -> _ _ _ ->.
Qed.

(** The start of a handshake: a new pending promise, whose function
    takes the place of the one installed before. *)
Lemma starts_handshake_after ev st :
  starts_handshake ev st = true →
  onMessageFunc (glue (socket (after ev st))) = Some (length (handshakes (socket st))) ∧
  handshakes (socket (after ev st)) = handshakes (socket st) ++ [Pending].
Proof.
  destruct ev as [args| | |k [msg|]|k|message|message|message|message|newState|pushed];
    try done.
  simpl. destruct (socketOnConnectedTask (socket st) !! k) as [[]|] eqn:Hk; try done.
  intros _. unfold after, step, task_send. simpl. by rewrite Hk.
Qed.

Lemma socket_message_or ev : (∃ m, ev = SocketMessage m) ∨ (∀ m, ev ≠ SocketMessage m).
Proof. destruct ev; try (by right); left; by eexists. Qed.

Lemma socket_message_after m st :
  after (SocketMessage m) st = set_socket (socket_message m (socket st)) st.
Proof. done. Qed.

Lemma handshake_settled_stays evs st p s :
  handshakes (socket st) !! p = Some s → s ≠ Pending →
  handshakes (socket (run evs st)) !! p = Some s.
Proof.
  revert st. induction evs as [|ev evs IH]; intros st Hp Hs; [done|].
  rewrite run_cons. apply IH; [|done].
  destruct (starts_handshake ev st) eqn:Hstart.
  { destruct (starts_handshake_after ev st Hstart) as [_ ->].
    rewrite lookup_app_l; [done|]. by eapply lookup_lt_Some. }
  destruct (socket_message_or ev) as [[m ->]|Hsm].
  - rewrite socket_message_after. unfold socket_message; simpl.
    destruct (onMessageFunc (glue (socket st))) as [q|]; [|done]. simpl.
    unfold connection_reply, resolve, reject.
    repeat case_bool_decide; try done; by apply settle_lookup_settled.
  - by destruct (socket_rest_after ev st Hstart Hsm) as [_ ->].
Qed.

Lemma connection_reply_pending p message hs :
  hs !! p = Some Pending →
  connection_reply p message hs !! p
  = Some (if sentinel message then reply_outcome message else Pending).
Proof.
  intros Hp. unfold connection_reply, sentinel, reply_outcome, resolve, reject.
  repeat case_bool_decide; simpl; try done; by apply settle_lookup_pending.
Qed.

Lemma connection_reply_other p q message hs :
  q ≠ p → connection_reply q message hs !! p = hs !! p.
Proof.
  intros Hne. unfold connection_reply, resolve, reject.
  repeat case_bool_decide; try done; by apply settle_lookup_ne.
Qed.

Lemma first_sentinel_sentinel evs message :
  first_sentinel evs = Some message → sentinel message = true.
Proof.
  induction evs as [|ev evs IH]; [done|].
  destruct ev; simpl; try done.
  destruct (sentinel message0) eqn:Hs; [by intros [= <-]|done].
Qed.

(** A pending handshake whose function is no longer the one installed
    stays pending for good. *)
Lemma superseded_stays evs st p :
  handshakes (socket st) !! p = Some Pending →
  onMessageFunc (glue (socket st)) ≠ Some p →
  handshakes (socket (run evs st)) !! p = Some Pending.
Proof.
  revert st. induction evs as [|ev evs IH]; intros st Hp Hf; [done|].
  rewrite run_cons. destruct (starts_handshake ev st) eqn:Hstart.
  { destruct (starts_handshake_after ev st Hstart) as [Hfunc Hh]. apply IH.
    - rewrite Hh, lookup_app_l; [done|]. by eapply lookup_lt_Some.
    - rewrite Hfunc. intros [= <-]. apply lookup_lt_Some in Hp. lia. }
  destruct (socket_message_or ev) as [[m ->]|Hsm].
  - rewrite socket_message_after. apply IH; unfold socket_message; simpl.
    + destruct (onMessageFunc (glue (socket st))) as [q|] eqn:Hq; [|done]. simpl.
      rewrite connection_reply_other; [done|]. congruence.
    + destruct (onMessageFunc (glue (socket st))) as [q|] eqn:Hq; simpl; by rewrite Hq.
  - destruct (socket_rest_after ev st Hstart Hsm) as [Hg Hh].
    apply IH; [by rewrite Hh|by rewrite Hg].
Qed.

(** A pending handshake whose function is the one installed is settled
    by the first sentinel of its exchange. *)
Lemma handshake_verdict_run evs st p :
  onMessageFunc (glue (socket st)) = Some p →
  handshakes (socket st) !! p = Some Pending →
  handshakes (socket (run evs st)) !! p = Some (handshake_verdict (exchange evs st)).
Proof.
  revert st. induction evs as [|ev evs IH]; intros st Hf Hp; [done|].
  rewrite run_cons. simpl exchange. destruct (starts_handshake ev st) eqn:Hstart.
  { destruct (starts_handshake_after ev st Hstart) as [Hfunc Hh].
    apply superseded_stays.
    - rewrite Hh, lookup_app_l; [done|]. by eapply lookup_lt_Some.
    - rewrite Hfunc. intros [= <-]. apply lookup_lt_Some in Hp. lia. }
  destruct (socket_message_or ev) as [[m ->]|Hsm].
  - pose proof (connection_reply_pending p m _ Hp) as Hreply.
    rewrite socket_message_after.
    assert (handshakes (socket (set_socket (socket_message m (socket st)) st))
            = connection_reply p m (handshakes (socket st))) as Hafter.
    { unfold socket_message; simpl. by rewrite Hf. }
    assert (glue (socket (set_socket (socket_message m (socket st)) st))
            = glue (socket st)) as Hglue.
    { unfold socket_message; simpl. by rewrite Hf. }
    unfold handshake_verdict; simpl. destruct (sentinel m) eqn:Hs.
    + apply handshake_settled_stays; [by rewrite Hafter|].
      unfold reply_outcome. by repeat case_bool_decide.
    + rewrite <-socket_message_after in *.
      apply IH; [by rewrite Hglue|by rewrite Hafter].
  - destruct (socket_rest_after ev st Hstart Hsm) as [Hg Hh].
    assert (handshake_verdict (ev :: exchange evs (after ev st))
            = handshake_verdict (exchange evs (after ev st))) as ->.
    { unfold handshake_verdict. destruct ev; try done. by destruct (Hsm message). }
    apply IH; [by rewrite Hg|by rewrite Hh].
Qed.

Lemma no_connection_message ev st :
  (∀ k r, ev ≠ ConnectionMessage k r) → starts_handshake ev st = false.
Proof. intros Hev. destruct ev as [| | |k r| | | | | | |]; try done. by destruct (Hev k r). Qed.

Lemma exchange_all evs st :
  Forall (λ ev, ∀ j r, ev ≠ ConnectionMessage j r) evs → exchange evs st = evs.
Proof.
  revert st. induction evs as [|ev evs IH]; intros st Hevs; [done|].
  apply Forall_cons in Hevs as [Hev Hevs]. simpl.
  by rewrite no_connection_message, IH.
Qed.

(** C4, as amended.  Every handshake exchange is settled by the first
    sentinel of the exchange, and by nothing else.  An exchange starts
    where an instance of [socketOnConnectedTask] is given its connection
    message and sends it, and lasts until the next one starts (the new
    message function takes the place of the old one).  The handshake
    promise resolves if the first sentinel to arrive on the main channel
    in that time is CONNECTION_ACCEPTED, rejects with "Connection was not
    accepted" if it is CONNECTION_DISALLOWED, rejects with "Did not send a
    connection message in time" if it is CONNECTION_TIMEOUT, and is pending
    as long as none of the three has arrived, whatever else happens
    (other messages, rounds of the polling task, a disconnect), and for
    good once the exchange is over. *)
Theorem handshake_settled_by_first_sentinel
    (st : Store) (k : nat) (connectionMessage : string) (evs : list event) :
  socketOnConnectedTask (socket st) !! k = Some AwaitConnectionMessage →
  let p := length (handshakes (socket st)) in
  let st1 := after (ConnectionMessage k (Some connectionMessage)) st in
  let outcome := handshakes (socket (run evs st1)) !! p in
  let heard := first_sentinel (exchange evs st1) in
  socketOnConnectedTask (socket st1) !! k = Some (AwaitHandshake p) ∧
  sent (glue (socket st1)) = sent (glue (socket st)) ++ [connectionMessage] ∧
  (outcome = Some (Resolved VUndefined) ↔ heard = Some "CONNECTION_ACCEPTED") ∧
  (outcome = Some (Rejected (VError "Connection was not accepted"))
   ↔ heard = Some "CONNECTION_DISALLOWED") ∧
  (outcome = Some (Rejected (VError "Did not send a connection message in time"))
   ↔ heard = Some "CONNECTION_TIMEOUT") ∧
  (outcome = Some Pending ↔ heard = None) ∧
  (Forall (λ ev, ∀ j r, ev ≠ ConnectionMessage j r) evs → exchange evs st1 = evs).
Proof.
  intros Hk p st1 outcome heard.
  assert (st1 = set_socket
                  (set_socketOnConnectedTask
                     (<[k := AwaitHandshake p]> (socketOnConnectedTask (socket st)))
                     (sendConnectionMessage connectionMessage (socket st)).2) st) as Hst1.
  { unfold st1, after, step, task_send. simpl. by rewrite Hk. }
  assert (outcome = Some (handshake_verdict (exchange evs st1))) as ->.
  { unfold outcome. apply handshake_verdict_run; [by rewrite Hst1|].
    rewrite Hst1. simpl. by rewrite lookup_app_r, Nat.sub_diag. }
  unfold heard, handshake_verdict. split_and!.
  - rewrite Hst1. simpl. apply list_lookup_insert_eq. by eapply lookup_lt_Some.
  - by rewrite Hst1.
  - destruct (first_sentinel (exchange evs st1)) as [m|] eqn:Hm; [|done].
    apply first_sentinel_sentinel in Hm. unfold sentinel in Hm. unfold reply_outcome.
    repeat case_bool_decide; subst; simpl in *; split; by try congruence.
  - destruct (first_sentinel (exchange evs st1)) as [m|] eqn:Hm; [|done].
    apply first_sentinel_sentinel in Hm. unfold sentinel in Hm. unfold reply_outcome.
    repeat case_bool_decide; subst; simpl in *; split; by try congruence.
  - destruct (first_sentinel (exchange evs st1)) as [m|] eqn:Hm; [|done].
    apply first_sentinel_sentinel in Hm. unfold sentinel in Hm. unfold reply_outcome.
    repeat case_bool_decide; subst; simpl in *; split; by try congruence.
  - destruct (first_sentinel (exchange evs st1)) as [m|] eqn:Hm; [|done].
    unfold reply_outcome. repeat case_bool_decide; split; by try congruence.
  - apply exchange_all.
Qed.

(** The flag becomes true only where [socketOnConnectedTask] continues
    after a resolved handshake. *)
Lemma connected_after ev st :
  connected (socket st) = false → connected (socket (after ev st)) = true →
  ∃ k p v, ev = TaskResumed k ∧
           socketOnConnectedTask (socket st) !! k = Some (AwaitHandshake p) ∧
           handshakes (socket st) !! p = Some (Resolved v).
Proof.
  intros Hc. unfold after, step.
  destruct ev as [args| | |k result|k|message|message|message|message|newState|pushed];
    simpl; try congruence.
  - unfold task_send. destruct (socketOnConnectedTask (socket st) !! k) as [[]|]; try congruence.
    destruct result; simpl; congruence.
  - unfold task_finish.
    destruct (socketOnConnectedTask (socket st) !! k) as [[|p| |]|] eqn:Hk; try congruence.
    destruct (handshakes (socket st) !! p) as [[|v|]|] eqn:Hp; simpl; try congruence.
    intros _. by exists k, p, v.
  - unfold socket_message. destruct (onMessageFunc (glue (socket st))); simpl; congruence.
  - destruct (onMessage message (subscribeCementChannel (socket st))); simpl; congruence.
  - unfold _onModelUpdated.
    destruct (parse message) as [m|]; simpl; [|congruence].
    destruct (get m "model"); simpl; [|congruence].
    destruct (get m "id"); simpl; [|congruence].
    destruct (get m "payload"); simpl; [|congruence].
    destruct (parse _); simpl; congruence.
  - unfold _onModelDeleted.
    destruct (parse message) as [m|]; simpl; [|congruence].
    destruct (get m "model"); simpl; [|congruence].
    destruct (get m "id"); simpl; congruence.
  - unfold updateSocketStateTask. case_bool_decide; simpl; congruence.
  - destruct (push_frame pushed st) as (Hrest & _).
    unfold socket_rest in Hrest. injection Hrest as _ _ Hrest _ _. congruence.
Qed.

(** Once true, the flag stays true until the transport's [disconnected]
    event. *)
Lemma connected_kept ev st :
  connected (socket st) = true → ev ≠ SocketDisconnected →
  connected (socket (after ev st)) = true.
Proof.
  intros Hc Hev. unfold after, step.
  destruct ev as [args| | |k result|k|message|message|message|message|newState|pushed];
    simpl; try done.
  - unfold task_send. destruct (socketOnConnectedTask (socket st) !! k) as [[]|]; try done.
    by destruct result.
  - unfold task_finish.
    destruct (socketOnConnectedTask (socket st) !! k) as [[|p| |]|]; try done.
    destruct (handshakes (socket st) !! p) as [[| |]|]; try done.
    match goal with |- context [onConnected ?s] =>
      by destruct (onConnected_frame s) as (_ & -> & _)
    end.
  - unfold socket_message. by destruct (onMessageFunc (glue (socket st))).
  - by destruct (onMessage message (subscribeCementChannel (socket st))).
  - unfold _onModelUpdated.
    destruct (parse message) as [m|]; simpl; [|done].
    destruct (get m "model"); simpl; [|done].
    destruct (get m "id"); simpl; [|done].
    destruct (get m "payload"); simpl; [|done].
    by destruct (parse _).
  - unfold _onModelDeleted.
    destruct (parse message) as [m|]; simpl; [|done].
    destruct (get m "model"); simpl; [|done].
    by destruct (get m "id").
  - unfold updateSocketStateTask. by case_bool_decide.
  - destruct (push_frame pushed st) as (Hrest & _).
    unfold socket_rest in Hrest. injection Hrest as _ _ Hrest _ _. congruence.
Qed.

Lemma connected_kept_run evs st :
  connected (socket st) = true → SocketDisconnected ∉ evs →
  connected (socket (run evs st)) = true.
Proof.
  revert st. induction evs as [|ev evs IH]; intros st Hc Hevs; [done|].
  rewrite run_cons. apply IH.
  - apply connected_kept; [done|]. intros ->. apply Hevs. by left.
  - intros Hin. apply Hevs. by right.
Qed.

(** A handshake promise becomes resolved only by CONNECTION_ACCEPTED. *)
Lemma resolved_after ev st p v :
  handshakes (socket (after ev st)) !! p = Some (Resolved v) →
  handshakes (socket st) !! p = Some (Resolved v) ∨
  ev = SocketMessage "CONNECTION_ACCEPTED".
Proof.
  destruct (starts_handshake ev st) eqn:Hstart.
  { destruct (starts_handshake_after ev st Hstart) as [_ ->].
    intros [Hp|[_ Hp]]%lookup_app_Some; [by left|].
    by apply list_lookup_singleton_Some in Hp as [_ ?]. }
  destruct (socket_message_or ev) as [[m ->]|Hsm].
  - rewrite socket_message_after. unfold socket_message; simpl.
    destruct (onMessageFunc (glue (socket st))) as [q|]; [|by left]. simpl.
    unfold connection_reply, resolve, reject.
    repeat case_bool_decide; subst; try (by left); try (by right);
      by intros [Hp|[[=] _]]%settle_inv; left.
  - destruct (socket_rest_after ev st Hstart Hsm) as [_ ->]. by left.
Qed.

Lemma accepted_before evs :
  (connected (socket (run evs init)) = true ∨
   ∃ p v, handshakes (socket (run evs init)) !! p = Some (Resolved v)) →
  SocketMessage "CONNECTION_ACCEPTED" ∈ evs.
Proof.
  induction evs as [|ev evs IH] using rev_ind.
  - by intros [Hc|(p & v & Hp)].
  - rewrite run_app. change (run [ev] ?s) with (after ev s).
    set (st := run evs init) in *. rewrite elem_of_app, list_elem_of_singleton.
    intros [Hc|(p & v & Hp)].
    + destruct (connected (socket st)) eqn:Hold; [left; apply IH; by left|].
      destruct (connected_after ev st Hold Hc) as (k & q & w & _ & _ & Hq).
      left. apply IH. right. by exists q, w.
    + apply resolved_after in Hp as [Hp| ->]; [|by right].
      left. apply IH. right. by exists p, v.
Qed.

(** The flag is true exactly after an instance of [socketOnConnectedTask]
    has continued after a resolved handshake, with no [disconnected]
    event since. *)
Lemma connected_iff evs :
  connected (socket (run evs init)) = true ↔
  ∃ evs1 k p v evs2,
    evs = evs1 ++ TaskResumed k :: evs2 ∧
    socketOnConnectedTask (socket (run evs1 init)) !! k = Some (AwaitHandshake p) ∧
    handshakes (socket (run evs1 init)) !! p = Some (Resolved v) ∧
    SocketDisconnected ∉ evs2.
Proof.
  split.
  - induction evs as [|ev evs IH] using rev_ind; [done|].
    rewrite run_app. change (run [ev] ?s) with (after ev s).
    set (st := run evs init) in *. intros Hc.
    destruct (connected (socket st)) eqn:Hold.
    + destruct (IH eq_refl) as (evs1 & k & p & v & evs2 & -> & Hk & Hp & Hnone).
      exists evs1, k, p, v, (evs2 ++ [ev]). split_and!; try done.
      * by rewrite <-app_assoc.
      * intros [Hin|Hin%list_elem_of_singleton]%elem_of_app; [done|]. subst ev.
        unfold after, step in Hc. simpl in Hc. done.
    + destruct (connected_after ev st Hold Hc) as (k & p & v & -> & Hk & Hp).
      exists evs, k, p, v, []. split_and!; try done. apply not_elem_of_nil.
  - intros (evs1 & k & p & v & evs2 & -> & Hk & Hp & Hnone).
    rewrite run_app, run_cons. apply connected_kept_run; [|done].
    unfold after, step, task_finish. simpl. rewrite Hk, Hp.
    match goal with |- context [onConnected ?s] =>
      by destruct (onConnected_frame s) as (_ & -> & _)
    end.
Qed.

Lemma onDisconnected_calls_after ev st :
  onDisconnected_calls (after ev st) = disconnects [ev] + onDisconnected_calls st.
Proof.
  unfold after, step.
  destruct ev as [args| | |k result|k|message|message|message|message|newState|pushed];
    simpl; try done.
  - unfold task_send. destruct (socketOnConnectedTask (socket st) !! k) as [[]|]; try done.
    by destruct result.
  - unfold task_finish.
    destruct (socketOnConnectedTask (socket st) !! k) as [[|p| |]|]; try done.
    destruct (handshakes (socket st) !! p) as [[| |]|]; try done.
    match goal with |- context [onConnected ?s] =>
      by destruct (onConnected_frame s) as (_ & _ & _ & _ & _ & ->)
    end.
  - by destruct (onMessage message (subscribeCementChannel (socket st))).
  - unfold _onModelUpdated.
    destruct (parse message) as [m|]; simpl; [|done].
    destruct (get m "model"); simpl; [|done].
    destruct (get m "id"); simpl; [|done].
    destruct (get m "payload"); simpl; [|done].
    by destruct (parse _).
  - unfold _onModelDeleted.
    destruct (parse message) as [m|]; simpl; [|done].
    destruct (get m "model"); simpl; [|done].
    by destruct (get m "id").
  - destruct (push_frame pushed st) as (_ & Hrest & _).
    unfold store_rest in Hrest. by injection Hrest as _ _ ->.
Qed.

Lemma disconnects_app evs1 evs2 :
  disconnects (evs1 ++ evs2) = disconnects evs1 + disconnects evs2.
Proof.
  induction evs1 as [|ev evs1 IH]; [done|]. destruct ev; simpl; by rewrite ?IH.
Qed.

Lemma onDisconnected_calls_run evs :
  onDisconnected_calls (run evs init) = disconnects evs.
Proof.
  induction evs as [|ev evs IH] using rev_ind; [done|].
  rewrite run_app, disconnects_app. change (run [ev] ?s) with (after ev s).
  rewrite onDisconnected_calls_after, IH. lia.
Qed.

(** C8, as amended.  In every state the socket reaches, [connected] is
    true exactly when an instance of [socketOnConnectedTask] has
    continued after its handshake promise resolved and the transport's
    [disconnected] event has not arrived since; so, if it is true, the
    sentinel CONNECTION_ACCEPTED has arrived, the only thing that resolves
    such a promise.  The transport's [connected] event alone, and an
    instance continuing after a rejected handshake (disallowed or timed
    out), leave the flag as it was: they never set it, and they do not
    clear it either.  The transport's [disconnected] event, and nothing
    else, sets the flag to false; it calls [onDisconnected] once and
    starts no handshake: [onDisconnected] has been called once for each
    [disconnected] event. *)
Theorem connected_only_after_accepted_handshake (evs : list event) (ev : event) :
  let st := run evs init in
  (connected (socket st) = true ↔
   ∃ evs1 k p v evs2,
     evs = evs1 ++ TaskResumed k :: evs2 ∧
     socketOnConnectedTask (socket (run evs1 init)) !! k = Some (AwaitHandshake p) ∧
     handshakes (socket (run evs1 init)) !! p = Some (Resolved v) ∧
     SocketDisconnected ∉ evs2) ∧
  (connected (socket st) = true → SocketMessage "CONNECTION_ACCEPTED" ∈ evs) ∧
  (connected (socket st) = false → connected (socket (after ev st)) = true →
   ∃ k p v, ev = TaskResumed k ∧
            socketOnConnectedTask (socket st) !! k = Some (AwaitHandshake p) ∧
            handshakes (socket st) !! p = Some (Resolved v)) ∧
  (connected (socket st) = true → connected (socket (after ev st)) = false →
   ev = SocketDisconnected) ∧
  (∀ p v, handshakes (socket (after ev st)) !! p = Some (Resolved v) →
          handshakes (socket st) !! p = Some (Resolved v) ∨
          ev = SocketMessage "CONNECTION_ACCEPTED") ∧
  connected (socket (after SocketConnected st)) = connected (socket st) ∧
  (∀ k p e, socketOnConnectedTask (socket st) !! k = Some (AwaitHandshake p) →
            handshakes (socket st) !! p = Some (Rejected e) →
            connected (socket (after (TaskResumed k) st)) = connected (socket st)) ∧
  (connected (socket (after SocketDisconnected st)) = false ∧
   onDisconnected_calls (after SocketDisconnected st) = S (onDisconnected_calls st) ∧
   socketOnConnectedTask (socket (after SocketDisconnected st))
   = socketOnConnectedTask (socket st) ∧
   glue (socket (after SocketDisconnected st)) = glue (socket st)) ∧
  onDisconnected_calls st = disconnects evs.
Proof.
  intros st. split_and!; try done.
  - apply connected_iff.
  - intros Hc. apply accepted_before. by left.
  - apply connected_after.
  - intros Hc Hc'. destruct ev; try done; by rewrite connected_kept in Hc'.
  - intros p v. apply resolved_after.
  - intros k p e Hk Hp. unfold after, step, task_finish. simpl. by rewrite Hk, Hp.
  - apply onDisconnected_calls_run.
Qed.

(** *** The subscribe channel under the store's events *)

Lemma channel_run_app evs1 evs2 c :
  channel_run (evs1 ++ evs2) c = channel_run evs2 (channel_run evs1 c).
Proof. unfold channel_run. apply foldl_app. Qed.

Lemma channel_wf_run evs c : channel_wf c → channel_wf (channel_run evs c).
Proof.
  revert c. induction evs as [|ev evs IH]; intros c Hwf; [done|].
  simpl. apply IH. by apply channel_wf_after.
Qed.

(** A pending promise that no other id names stays so until a frame
    carries its id. *)
Lemma isolated_after ev c id p :
  promises c !! p = Some Pending →
  (∀ k, cementMessages c !! k = Some p → k = id) →
  (∀ m, ev = Received m → frame_id m ≠ Some id) →
  promises (channel_after ev c) !! p = Some Pending ∧
  (∀ k, cementMessages (channel_after ev c) !! k = Some p → k = id).
Proof.
  intros Hp Honly Hev. destruct ev as [m|id' data]; simpl.
  - destruct (onMessage m c) as [c'|] eqn:Hm; [|done].
    apply onMessage_Normal in Hm as (k & q & Hk & Hq & ->). simpl.
    assert (q ≠ p) as Hne.
    { intros ->. apply Honly in Hq as ->. by eapply Hev. }
    split; [by rewrite settle_lookup_ne|].
    intros k' [_ Hk']%lookup_delete_Some. by apply Honly.
  - split.
    + rewrite lookup_app_l; [done|]. by eapply lookup_lt_Some.
    + intros k. destruct (decide (id' = k)) as [Heq|Hne].
      * subst. rewrite lookup_insert_eq. intros [= <-].
        apply lookup_lt_Some in Hp. lia.
      * rewrite lookup_insert_ne by done. apply Honly.
Qed.

Lemma isolated_run evs c id p :
  promises c !! p = Some Pending →
  (∀ k, cementMessages c !! k = Some p → k = id) →
  (∀ m, Received m ∈ evs → frame_id m ≠ Some id) →
  promises (channel_run evs c) !! p = Some Pending.
Proof.
  revert c. induction evs as [|ev evs IH]; intros c Hp Honly Hevs; [done|].
  destruct (isolated_after ev c id p Hp Honly) as [Hp' Honly'].
  { intros m ->. apply Hevs. by left. }
  simpl. apply IH; try done. intros m Hin. apply Hevs. by right.
Qed.

Lemma perform_all_channel requests st :
  ∃ cevs, (∀ m, Received m ∉ cevs) ∧
          subscribe_channel (perform_all requests st)
          = channel_run cevs (subscribe_channel st).
Proof.
  induction requests as [|[name id] requests IH] using rev_ind.
  - exists []. split; [|done]. intros m Hin. by apply elem_of_nil in Hin.
  - destruct IH as (cevs & Hsent & Hrun). rewrite perform_all_snoc.
    eexists (cevs ++ [Sent _ _]). split.
    + intros m [Hin|Hin]%elem_of_app; [by eapply Hsent|].
      by apply list_elem_of_singleton in Hin.
    + rewrite channel_run_app, <-Hrun. done.
Qed.

Lemma track_channel model st st' :
  track model st = Normal st' →
  ∃ cevs, (∀ m, Received m ∉ cevs) ∧
          subscribe_channel st' = channel_run cevs (subscribe_channel st).
Proof.
  intros Ht.
  assert (∀ m, Received m ∉ []) as Hnil.
  { intros m Hin. by apply elem_of_nil in Hin. }
  destruct (track_cases model st) as [[_ Ht']|[(_ & Ht' & _)|(_ & Hshould & Hnot & Ht')]];
    rewrite Ht' in Ht; [done|injection Ht as <-; by exists []|]. injection Ht as <-.
  destruct (connected (socket st)); [|by exists []].
  apply (perform_all_channel [(modelName model, record_id model)] st).
Qed.

Lemma push_channel pushed st :
  ∃ cevs, (∀ m, Received m ∉ cevs) ∧
          subscribe_channel (_push pushed st).2 = channel_run cevs (subscribe_channel st).
Proof.
  apply (push_related (λ s s',
    ∃ cevs, (∀ m, Received m ∉ cevs) ∧
            subscribe_channel s' = channel_run cevs (subscribe_channel s))).
  - intros s. exists []. split; [|done]. intros m Hin. by apply elem_of_nil in Hin.
  - intros s1 s2 s3 (cevs1 & Hsent1 & Hrun1) (cevs2 & Hsent2 & Hrun2).
    exists (cevs1 ++ cevs2). split.
    + intros m [Hin|Hin]%elem_of_app; [by eapply Hsent1|by eapply Hsent2].
    + by rewrite channel_run_app, <-Hrun1.
  - intros m s s'. apply track_channel.
Qed.

(** Each event of the store acts on the subscribe channel as frames
    received and calls of [send]; a frame is received only where the
    event is that frame arriving. *)
Lemma after_channel ev st :
  ∃ cevs, (∀ m, Received m ∈ cevs → ev = SubscribeMessage m) ∧
          subscribe_channel (after ev st) = channel_run cevs (subscribe_channel st).
Proof.
  assert (∃ cevs : list channel_event,
            (∀ m, Received m ∈ cevs → ev = SubscribeMessage m) ∧
            subscribe_channel st = channel_run cevs (subscribe_channel st)) as Hsame.
  { exists []. split; [|done]. intros m Hin. by apply elem_of_nil in Hin. }
  unfold after, step.
  destruct ev as [args| | |k result|k|message|message|message|message|newState|pushed];
    simpl; try done.
  - unfold task_send. destruct (socketOnConnectedTask (socket st) !! k) as [[]|]; try done.
    by destruct result.
  - unfold task_finish.
    destruct (socketOnConnectedTask (socket st) !! k) as [[|p| |]|]; try done.
    destruct (handshakes (socket st) !! p) as [[| |]|]; try done.
    rewrite onConnected_perform_all.
    match goal with |- context [perform_all ?r ?s] =>
      destruct (perform_all_channel r s) as (cevs & Hsent & Hrun)
    end.
    exists cevs. split; [|exact Hrun]. intros m Hin. by destruct (Hsent m).
  - unfold socket_message. by destruct (onMessageFunc (glue (socket st))).
  - exists [Received message]. split.
    + by intros m [= ->]%list_elem_of_singleton.
    + unfold subscribe_channel. simpl.
      by destruct (onMessage message (subscribeCementChannel (socket st))).
  - unfold _onModelUpdated.
    destruct (parse message) as [m|]; simpl; [|done].
    destruct (get m "model"); simpl; [|done].
    destruct (get m "id"); simpl; [|done].
    destruct (get m "payload"); simpl; [|done].
    by destruct (parse _).
  - unfold _onModelDeleted.
    destruct (parse message) as [m|]; simpl; [|done].
    destruct (get m "model"); simpl; [|done].
    by destruct (get m "id").
  - unfold updateSocketStateTask. by case_bool_decide.
  - destruct (push_channel pushed st) as (cevs & Hsent & Hrun).
    exists cevs. split; [|exact Hrun]. intros m Hin. by destruct (Hsent m).
Qed.

Lemma run_channel evs st :
  ∃ cevs, (∀ m, Received m ∈ cevs → SubscribeMessage m ∈ evs) ∧
          subscribe_channel (run evs st) = channel_run cevs (subscribe_channel st).
Proof.
  revert st. induction evs as [|ev evs IH]; intros st.
  - exists []. split; [|done]. intros m Hin. by apply elem_of_nil in Hin.
  - rewrite run_cons.
    destruct (after_channel ev st) as (cevs1 & Hrecv1 & Hrun1).
    destruct (IH (after ev st)) as (cevs2 & Hrecv2 & Hrun2).
    exists (cevs1 ++ cevs2). split.
    + intros m [Hin|Hin]%elem_of_app.
      * apply Hrecv1 in Hin as ->. by left.
      * right. by apply Hrecv2.
    + by rewrite channel_run_app, <-Hrun1.
Qed.

Lemma subscribe_channel_wf evs : channel_wf (subscribe_channel (run evs init)).
Proof.
  destruct (run_channel evs init) as (cevs & _ & ->).
  apply channel_wf_run, channel_wf_create.
Qed.

(** C7, as amended.  The transport's [disconnected] event leaves the
    subscribe channel as it was and rejects nothing: a request pending
    before it is still pending after it, and stays pending, whatever
    happens next (reconnects and replays included), until a frame that
    carries its id arrives. *)
Theorem disconnect_leaves_requests_pending
    (evs later : list event) (id : string) (p : nat) :
  let st := run evs init in
  cementMessages (subscribe_channel st) !! id = Some p →
  promises (subscribe_channel st) !! p = Some Pending →
  (∀ m, SubscribeMessage m ∈ later → frame_id m ≠ Some id) →
  subscribe_channel (after SocketDisconnected st) = subscribe_channel st ∧
  connected (socket (after SocketDisconnected st)) = false ∧
  promises (subscribe_channel (run (SocketDisconnected :: later) st)) !! p
  = Some Pending.
Proof.
  intros st Hid Hp Hlater. split_and!; try done.
  destruct (run_channel (SocketDisconnected :: later) st) as (cevs & Hrecv & ->).
  destruct (subscribe_channel_wf evs) as [_ Hinj]. fold st in Hinj.
  apply (isolated_run cevs _ id p Hp).
  - intros k Hk. by eapply Hinj.
  - intros m Hin. apply Hrecv in Hin.
    apply elem_of_cons in Hin as [[=]|Hin]. by apply Hlater.
Qed.
(** *** Dispatch of update and delete pushes *)

(** C6.  A push whose model name [jsonapiModelNames] does not bind is
    dispatched onward with [undefined] for the model name: the handler
    returns normally, [pushPayload] or [deleteRecordTask.perform] is
    called with [undefined], and nothing is logged. *)
Theorem unbound_name_dispatched_as_undefined
    (st : Store) (message : string) (m : json) (model id payload : option json)
    (document : json) :
  parse message = Normal m →
  get m "model" = Normal model →
  get m "id" = Normal id →
  jsonapiModelNames st !! ToString_opt model = None →
  step (DeletedMessage message) st
  = Normal (set_host (host st ++ [deleteRecordTask None id]) st) ∧
  (get m "payload" = Normal payload →
   parse (ToString_opt payload) = Normal document →
   step (UpdatedMessage message) st
   = Normal (set_host (host st ++ [pushPayload None document]) st)).
Proof.
  intros Hm Hmodel Hid Hname. split.
  - unfold step, _onModelDeleted, onModelDeleted. rewrite Hm; simpl.
    rewrite Hmodel; simpl. rewrite Hid; simpl. by rewrite Hname.
  - intros Hpayload Hdoc. unfold step, _onModelUpdated, onModelUpdated.
    rewrite Hm; simpl. rewrite Hmodel; simpl. rewrite Hid; simpl.
    rewrite Hpayload; simpl. rewrite Hdoc; simpl. by rewrite Hname.
Qed.

(** C9, as amended.  With 'article' bound to 'post', the update frame is
    decoded, its payload being decoded in turn, [onModelUpdated] receives
    the wire name 'article', the id '1' and the decoded payload, and
    [pushPayload] is called with 'post' and the decoded payload; the id
    is not passed on. *)
Theorem article_update_pushes_post_payload (st : Store) :
  jsonapiModelNames st !! "article" = Some "post" →
  _onModelUpdated article_frame st
  = Normal (onModelUpdated (Some (JStr "article")) (Some (JStr "1")) article_document st) ∧
  step (UpdatedMessage article_frame) st
  = Normal (set_host (host st ++ [pushPayload (Some "post") article_document]) st) ∧
  arguments <$> host (after (UpdatedMessage article_frame) st)
  = (arguments <$> host st) ++ [[Some (JStr "post"); Some article_document]].
Proof.
  intros Hname.
  assert (_onModelUpdated article_frame st
          = Normal (onModelUpdated (Some (JStr "article")) (Some (JStr "1"))
                      article_document st)) as Hdecoded by done.
  assert (onModelUpdated (Some (JStr "article")) (Some (JStr "1")) article_document st
          = set_host (host st ++ [pushPayload (Some "post") article_document]) st) as Hcall.
  { unfold onModelUpdated. simpl ToString_opt. by rewrite Hname. }
  split_and!; [done|by rewrite <-Hcall| ].
  unfold after, step. rewrite Hdecoded, Hcall. simpl. by rewrite fmap_app.
Qed.

End Properties.

(** * Further properties of the code *)

(** ** The correlated channel *)

(** X1.  How [onMessage] ends, for every message and every channel: it
    throws a [SyntaxError] iff the message is not a JSON text; it throws a
    [TypeError] iff the message is the text of [null] or the string of its
    id names no pending entry; otherwise it returns, having settled the
    promise of that entry (resolved iff the status is the number 0) and
    deleted the entry, with what the channel has sent unchanged. *)
Theorem onMessage_outcomes (message : string) (c : CementChannel) :
  (onMessage message c = Throw SyntaxError ↔ JSON_parse message = None) ∧
  (onMessage message c = Throw TypeError ↔
   JSON_parse message = Some JNull ∨
   ∃ k, frame_id message = Some k ∧ cementMessages c !! k = None) ∧
  (∀ c', onMessage message c = Normal c' ↔
         ∃ k p, frame_id message = Some k ∧ cementMessages c !! k = Some p ∧
                c' = {| cementMessages := delete k (cementMessages c);
                        channel := channel c;
                        promises := settle p (if frame_success message
                                              then Resolved (frame_data message)
                                              else Rejected (frame_data message))
                                      (promises c) |}).
Proof.
  split_and!.
  - unfold onMessage, parse. destruct (JSON_parse message) as [data|]; simpl; [|done].
    split; [|done]. destruct data; simpl; try done;
      by destruct (cementMessages c !! _).
  - split.
    + intros Hthrow. destruct (JSON_parse message) as [data|] eqn:Hparse.
      * unfold onMessage, frame_id, parse in *. rewrite Hparse in *. simpl in *.
        destruct data; simpl in *; [by left|right..];
          (destruct (cementMessages c !! _) eqn:Hk; [done|by eexists]).
      * unfold onMessage, parse in Hthrow. by rewrite Hparse in Hthrow.
    + intros [Hparse|(k & Hk & Hnone)].
      * unfold onMessage, parse. by rewrite Hparse.
      * by eapply onMessage_unmatched.
  - intros c'. split; [apply onMessage_Normal|].
    intros (k & p & Hk & Hp & ->). unfold onMessage, frame_id, frame_success,
      frame_data, parse in *.
    destruct (JSON_parse message) as [data|]; simpl in *; [|done].
    destruct (get data "status") as [status|]; simpl in *; [|done].
    destruct (get data "id") as [id|]; simpl in *; [|done].
    injection Hk as ->. rewrite Hp. unfold resolve, reject.
    by destruct (is_zero status).
Qed.

(** X2.  A response is used up: once [onMessage] has returned for a frame,
    the entry of its id is gone while every other entry and everything
    sent are as before, and the same frame delivered again throws a
    [TypeError]. *)
Theorem response_is_consumed (message : string) (c c' : CementChannel) :
  onMessage message c = Normal c' →
  (∃ k, frame_id message = Some k ∧ cementMessages c' !! k = None ∧
        ∀ k', k' ≠ k → cementMessages c' !! k' = cementMessages c !! k') ∧
  channel c' = channel c ∧
  length (promises c') = length (promises c) ∧
  onMessage message c' = Throw TypeError.
Proof.
  intros Hm. apply onMessage_Normal in Hm as (k & p & Hk & Hp & ->). simpl.
  split_and!.
  - exists k. split_and!; [done|apply lookup_delete_eq|].
    intros k' Hne. by apply lookup_delete_ne.
  - done.
  - apply length_settle.
  - eapply onMessage_unmatched; [done|]. apply lookup_delete_eq.
Qed.

(** A pending promise that no entry names stays pending for good. *)
Lemma orphan_run evs c p :
  promises c !! p = Some Pending →
  (∀ k, cementMessages c !! k ≠ Some p) →
  promises (channel_run evs c) !! p = Some Pending.
Proof.
  revert c. induction evs as [|ev evs IH]; intros c Hp Hnone; [done|].
  simpl. apply IH; unfold flip; destruct ev as [m|id data]; simpl.
  - destruct (onMessage m c) as [c'|] eqn:Hm; [|done].
    apply onMessage_Normal in Hm as (k & q & _ & Hq & ->). simpl.
    rewrite settle_lookup_ne; [done|]. intros ->. by eapply Hnone.
  - rewrite lookup_app_l; [done|]. by eapply lookup_lt_Some.
  - destruct (onMessage m c) as [c'|] eqn:Hm; [|done].
    apply onMessage_Normal in Hm as (k & q & _ & Hq & ->). simpl.
    intros k' [_ Hk']%lookup_delete_Some. by eapply Hnone.
  - intros k. destruct (decide (id = k)) as [Heq|Hne].
    + subst. rewrite lookup_insert_eq. intros [= <-].
      apply lookup_lt_Some in Hp. lia.
    + rewrite lookup_insert_ne by done. apply Hnone.
Qed.

(** X3.  [send] does not look whether the id it is given is pending
    already.  If it is, the new entry takes the place of the old one, and
    the promise of the earlier call stays pending whatever arrives or is
    sent afterwards: no frame settles it any more. *)
Theorem reused_id_orphans_the_earlier_promise
    (c : CementChannel) (id data : string) (p : nat) (evs : list channel_event) :
  channel_wf c →
  cementMessages c !! id = Some p →
  promises c !! p = Some Pending →
  cementMessages (send id data c).2 !! id = Some (length (promises c)) ∧
  p ≠ length (promises c) ∧
  promises (channel_run evs (send id data c).2) !! p = Some Pending.
Proof.
  intros [Hlt Hinj] Hid Hp. pose proof (Hlt _ _ Hid) as Hbound. split_and!.
  - simpl. apply lookup_insert_eq.
  - lia.
  - apply orphan_run; simpl.
    + rewrite lookup_app_l; [done|lia].
    + intros k. destruct (decide (id = k)) as [Heq|Hne].
      * subst. rewrite lookup_insert_eq. intros [= ?]. lia.
      * rewrite lookup_insert_ne by done. intros Hk. by specialize (Hinj _ _ _ Hid Hk).
Qed.

(** ** The frames on the wire *)

(** The parser reads back what [escape] writes, character by character. *)
Lemma parse_chars_escape_char c f r :
  parse_chars (S f) (list_ascii_of_string (escape_char c) ++ r)
  = '(t, rest) ← parse_chars f r; Some (String c t, rest).
Proof.
  destruct c as [b0 b1 b2 b3 b4 b5 b6 b7].
  destruct b0, b1, b2, b3, b4, b5, b6, b7; reflexivity.
Qed.

Lemma list_ascii_of_string_app s1 s2 :
  list_ascii_of_string (s1 +:+ s2) = list_ascii_of_string s1 ++ list_ascii_of_string s2.
Proof. induction s1 as [|c s1 IH]; [done|]. simpl. by rewrite IH. Qed.

Lemma parse_chars_escape s f rest :
  (String.length s < f)%nat →
  parse_chars f (list_ascii_of_string (escape s) ++ dquote :: rest) = Some (s, rest).
Proof.
  revert f. induction s as [|c s IH]; intros f Hf.
  - destruct f; [lia|]. done.
  - destruct f as [|f]; [lia|]. simpl in Hf. simpl escape.
    rewrite list_ascii_of_string_app, <-app_assoc, parse_chars_escape_char.
    rewrite IH by lia. done.
Qed.

Lemma length_escape s : (String.length s ≤ length (list_ascii_of_string (escape s)))%nat.
Proof.
  induction s as [|c s IH]; [done|]. simpl escape.
  rewrite list_ascii_of_string_app, length_app. simpl.
  assert (1 ≤ length (list_ascii_of_string (escape_char c)))%nat; [|lia].
  destruct c as [b0 b1 b2 b3 b4 b5 b6 b7].
  destruct b0, b1, b2, b3, b4, b5, b6, b7; simpl; lia.
Qed.

Lemma list_ascii_of_quote s :
  list_ascii_of_string (quote s) = dquote :: list_ascii_of_string (escape s) ++ [dquote].
Proof. unfold quote. simpl. by rewrite list_ascii_of_string_app. Qed.

Lemma parse_value_dquote f r :
  parse_value (S f) (dquote :: r)
  = '(t, rest) ← parse_chars (S (length r)) r; Some (JStr t, rest).
Proof. reflexivity. Qed.

Lemma parse_member_dquote pv r :
  parse_member pv (dquote :: r)
  = '(k, r1) ← parse_chars (S (length r)) r;
    match skip_ws r1 with
    | ":"%char :: r2 => '(v, r3) ← pv r2; Some (k, v, r3)
    | _ => None
    end.
Proof. reflexivity. Qed.

Lemma skip_ws_colon r : skip_ws (":"%char :: r) = ":"%char :: r.
Proof. reflexivity. Qed.

Lemma skip_ws_dquote r : skip_ws (dquote :: r) = dquote :: r.
Proof. reflexivity. Qed.

Lemma parse_value_brace f r :
  parse_value (S (S f)) ("{"%char :: r)
  = match skip_ws r with
    | "}"%char :: r' => Some (JObj [], r')
    | _ =>
        '(k, v, r1) ← parse_member (parse_value (S f)) r;
        '(kvs, r2) ← parse_members (parse_value (S f)) (S (length r1)) r1;
        Some (JObj ((k, v) :: kvs), r2)
    end.
Proof. reflexivity. Qed.

Lemma parse_members_comma pv f r :
  parse_members pv (S f) (","%char :: r)
  = '(k, v, r1) ← parse_member pv r;
    '(kvs, r2) ← parse_members pv f r1;
    Some ((k, v) :: kvs, r2).
Proof. reflexivity. Qed.

Lemma parse_members_close pv f r :
  parse_members pv (S f) ("}"%char :: r) = Some ([], r).
Proof. reflexivity. Qed.

Lemma parse_quoted s rest :
  parse_chars (S (length (list_ascii_of_string (escape s) ++ dquote :: rest)))
    (list_ascii_of_string (escape s) ++ dquote :: rest)
  = Some (s, rest).
Proof.
  apply parse_chars_escape. rewrite length_app. pose proof (length_escape s). lia.
Qed.

Lemma parse_value_quote f s rest :
  parse_value (S f) (list_ascii_of_string (quote s) ++ rest) = Some (JStr s, rest).
Proof.
  rewrite list_ascii_of_quote, <-app_comm_cons, parse_value_dquote, <-app_assoc.
  change ([dquote] ++ rest) with (dquote :: rest). by rewrite parse_quoted.
Qed.

Lemma parse_member_quote f k v rest :
  parse_member (parse_value (S f))
    (list_ascii_of_string (quote k) ++ ":"%char :: list_ascii_of_string (quote v) ++ rest)
  = Some (k, JStr v, rest).
Proof.
  rewrite list_ascii_of_quote, <-app_comm_cons, parse_member_dquote, <-app_assoc.
  change ([dquote] ++ ?r) with (dquote :: r). rewrite parse_quoted.
  cbn [mbind option_bind]. rewrite skip_ws_colon, parse_value_quote. done.
Qed.

Lemma parse_value_two_members f k1 v1 k2 v2 rest :
  parse_value (S (S f))
    ("{"%char :: list_ascii_of_string (quote k1) ++ ":"%char
       :: list_ascii_of_string (quote v1) ++ ","%char
       :: list_ascii_of_string (quote k2) ++ ":"%char
       :: list_ascii_of_string (quote v2) ++ "}"%char :: rest)
  = Some (JObj [(k1, JStr v1); (k2, JStr v2)], rest).
Proof.
  rewrite parse_value_brace.
  rewrite (list_ascii_of_quote k1), <-app_comm_cons, skip_ws_dquote.
  rewrite app_comm_cons, <-(list_ascii_of_quote k1), parse_member_quote.
  cbn [mbind option_bind]. rewrite parse_members_comma, parse_member_quote.
  cbn [mbind option_bind length]. rewrite parse_members_close. done.
Qed.


(** [JSON.parse] undoes [JSON.stringify] on an object of two strings. *)
Lemma JSON_parse_two_strings k1 v1 k2 v2 :
  JSON_parse (JSON_stringify (JObj [(k1, JStr v1); (k2, JStr v2)]))
  = Some (JObj [(k1, JStr v1); (k2, JStr v2)]).
Proof.
  unfold JSON_parse.
  assert (list_ascii_of_string (JSON_stringify (JObj [(k1, JStr v1); (k2, JStr v2)]))
          = "{"%char :: list_ascii_of_string (quote k1) ++ ":"%char
              :: list_ascii_of_string (quote v1) ++ ","%char
              :: list_ascii_of_string (quote k2) ++ ":"%char
              :: list_ascii_of_string (quote v2) ++ "}"%char :: []) as ->.
  { cbn [JSON_stringify]. rewrite !list_ascii_of_string_app.
    cbn [list_ascii_of_string app].
    by repeat (rewrite <-app_assoc || rewrite <-app_comm_cons). }
  cbn [length]. by rewrite parse_value_two_members.
Qed.

(** X16.  The frame [send] puts on the channel is a JSON text that
    [JSON.parse] reads back as the object of the id and the data, whatever
    characters they hold; it is the one frame added, and its id is the
    one under which the new promise is pending. *)
Theorem sent_frame_decodes (c : CementChannel) (id data : string) :
  ∃ frame,
    channel (send id data c).2 = channel c ++ [frame] ∧
    JSON_parse frame = Some (JObj [("id", JStr id); ("data", JStr data)]) ∧
    (data0 ← parse frame; get data0 "id") = Normal (Some (JStr id)) ∧
    cementMessages (send id data c).2 !! id = Some (send id data c).1 ∧
    promises (send id data c).2 !! (send id data c).1 = Some Pending.
Proof.
  eexists. split; [done|]. split; [apply JSON_parse_two_strings|].
  split_and!.
  - unfold parse. rewrite JSON_parse_two_strings. done.
  - simpl. apply lookup_insert_eq.
  - simpl. by rewrite lookup_app_r, Nat.sub_diag.
Qed.

(** ** The store *)

Section Coverage.
Variable UUID_v4 : nat → string.
Variable pathForType : string → string.
Variable shouldSubscribe : Model → bool.

Local Abbreviation subscribeTask_perform := (subscribeTask_perform UUID_v4 pathForType).
Local Abbreviation track := (track UUID_v4 pathForType shouldSubscribe).
Local Abbreviation _push := (_push UUID_v4 pathForType shouldSubscribe).
Local Abbreviation onConnected := (onConnected UUID_v4 pathForType).
Local Abbreviation task_finish := (task_finish UUID_v4 pathForType).
Local Abbreviation step := (step UUID_v4 pathForType shouldSubscribe).
Local Abbreviation after := (after UUID_v4 pathForType shouldSubscribe).
Local Abbreviation run := (run UUID_v4 pathForType shouldSubscribe).
Local Abbreviation subscribe_frame := (subscribe_frame UUID_v4 pathForType).
Local Abbreviation perform_all := (perform_all UUID_v4 pathForType).
Local Abbreviation registry_inv := (registry_inv UUID_v4 pathForType).
Local Abbreviation faults := (faults shouldSubscribe).
Local Abbreviation handled := (handled shouldSubscribe).
Local Abbreviation exchange := (exchange UUID_v4 pathForType shouldSubscribe).
Local Abbreviation pending_entries := (pending_entries UUID_v4).
Local Abbreviation entries_complete := (entries_complete UUID_v4).
Local Abbreviation bindings_inv := (bindings_inv pathForType).
Local Abbreviation track_earlier := (track_earlier UUID_v4 pathForType shouldSubscribe).
Local Abbreviation _push_earlier := (_push_earlier UUID_v4 pathForType shouldSubscribe).

(** A property of the model-name map, the requests performed and the
    subscribe channel that [subscribeTask] and the frames of the
    subscribe channel keep is kept by every event. *)
Section Lifting.
Variable P : Store → Prop.
Hypothesis P_rest : ∀ st st',
  jsonapiModelNames st' = jsonapiModelNames st →
  subscribeTask st' = subscribeTask st →
  subscribe_channel st' = subscribe_channel st →
  P st → P st'.
Hypothesis P_perform : ∀ st name id, P st → P (subscribeTask_perform name id st).
Hypothesis P_message : ∀ st message c,
  P st → onMessage message (subscribe_channel st) = Normal c →
  P (set_socket (set_subscribeCementChannel c (socket st)) st).

Lemma lift_perform_all requests st : P st → P (perform_all requests st).
Proof.
  induction requests as [|[name id] requests IH] using rev_ind; [done|].
  intros Hst. rewrite perform_all_snoc. by apply P_perform, IH.
Qed.

Lemma lift_track model st st' : P st → track model st = Normal st' → P st'.
Proof.
  intros Hst Ht.
  destruct (track_cases UUID_v4 pathForType shouldSubscribe model st)
    as [[_ Ht']|[(_ & Ht' & _)|(_ & Hshould & Hnot & Ht')]];
    rewrite Ht' in Ht; [done|by injection Ht as <-|]. injection Ht as <-.
  match goal with |- P (set_subscriptions ?m ?s) => apply (P_rest s); try done end.
  destruct (connected (socket st)); [by apply P_perform|done].
Qed.

Lemma lift_push pushed st : P st → P (_push pushed st).2.
Proof.
  apply (push_kept UUID_v4 pathForType shouldSubscribe). intros m s s'. apply lift_track.
Qed.

Lemma lift_after ev st : P st → P (after ev st).
Proof.
  intros Hst. unfold after, step.
  destruct ev as [args| | |k result|k|message|message|message|message|newState|pushed];
    simpl; try (by apply (P_rest st)).
  - apply (P_rest st); try done; unfold task_send;
      destruct (socketOnConnectedTask (socket st) !! k) as [[]|]; try done;
      by destruct result.
  - unfold task_finish.
    destruct (socketOnConnectedTask (socket st) !! k) as [[|p| |]|]; try done.
    destruct (handshakes (socket st) !! p) as [[| |]|]; try done.
    + rewrite onConnected_perform_all. apply lift_perform_all. by apply (P_rest st).
    + by apply (P_rest st).
  - apply (P_rest st); try done; unfold socket_message;
      by destruct (onMessageFunc (glue (socket st))).
  - destruct (onMessage message (subscribeCementChannel (socket st))) as [c|] eqn:Hm;
      simpl; [|done].
    by eapply P_message.
  - unfold _onModelUpdated.
    destruct (parse message) as [m|]; simpl; [|done].
    destruct (get m "model"); simpl; [|done].
    destruct (get m "id"); simpl; [|done].
    destruct (get m "payload"); simpl; [|done].
    destruct (parse _); simpl; [|done]. by apply (P_rest st).
  - unfold _onModelDeleted.
    destruct (parse message) as [m|]; simpl; [|done].
    destruct (get m "model"); simpl; [|done].
    destruct (get m "id"); simpl; [|done]. by apply (P_rest st).
  - apply (P_rest st); try done; unfold updateSocketStateTask; by case_bool_decide.
  - by apply lift_push.
Qed.

Lemma lift_run evs st : P st → P (run evs st).
Proof.
  revert st. induction evs as [|ev evs IH]; intros st Hst; [done|].
  rewrite run_cons. by apply IH, lift_after.
Qed.
End Lifting.

Lemma onMessage_matched message c k p :
  frame_id message = Some k → cementMessages c !! k = Some p →
  onMessage message c
  = Normal {| cementMessages := delete k (cementMessages c);
              channel := channel c;
              promises := settle p (if frame_success message
                                    then Resolved (frame_data message)
                                    else Rejected (frame_data message)) (promises c) |}.
Proof.
  unfold onMessage, frame_id, frame_success, frame_data, parse.
  destruct (JSON_parse message) as [data|]; simpl; [|done].
  destruct (get data "status") as [status|]; simpl; [|done].
  destruct (get data "id") as [id|]; simpl; [|done].
  intros [= ->] ->. unfold resolve, reject. by destruct (is_zero status).
Qed.

Lemma subscribe_channel_perform name id st :
  subscribe_channel (subscribeTask_perform name id st)
  = (send (UUID_v4 (length (promises (subscribe_channel st))))
       (JSON_stringify (JObj [("model", JStr (pathForType name)); ("id", JStr id)]))
       (subscribe_channel st)).2.
Proof. done. Qed.

Lemma pending_entries_send data c :
  pending_entries c →
  pending_entries (send (UUID_v4 (length (promises c))) data c).2.
Proof.
  intros Hc k p. simpl.
  destruct (decide (UUID_v4 (length (promises c)) = k)) as [Heq|Hne].
  - rewrite <-Heq, lookup_insert_eq. intros [= <-].
    split; [done|]. by rewrite lookup_app_r, Nat.sub_diag.
  - rewrite lookup_insert_ne by done. intros Hk. destruct (Hc _ _ Hk) as [-> Hp].
    split; [done|]. rewrite lookup_app_l; [done|]. by eapply lookup_lt_Some.
Qed.

Lemma pending_entries_onMessage message c c' :
  pending_entries c → onMessage message c = Normal c' → pending_entries c'.
Proof.
  intros Hc Hm. apply onMessage_Normal in Hm as (k & q & _ & Hq & ->).
  intros k' p'. simpl. intros [Hne Hk']%lookup_delete_Some.
  destruct (Hc _ _ Hk') as [-> Hp']. destruct (Hc _ _ Hq) as [-> _].
  split; [done|]. rewrite settle_lookup_ne; [done|]. by intros ->.
Qed.

Lemma entries_complete_send data c :
  Inj (=) (=) UUID_v4 →
  entries_complete c →
  entries_complete (send (UUID_v4 (length (promises c))) data c).2.
Proof.
  intros Hinj Hc p. simpl. intros [Hp|[Hlen Hp]]%lookup_app_Some.
  - rewrite lookup_insert_ne; [by apply Hc|].
    intros Heq%(inj UUID_v4). apply lookup_lt_Some in Hp. lia.
  - apply list_lookup_singleton_Some in Hp as [Hp _].
    assert (p = length (promises c)) as -> by lia. apply lookup_insert_eq.
Qed.

Lemma entries_complete_onMessage message c c' :
  Inj (=) (=) UUID_v4 →
  pending_entries c → entries_complete c → onMessage message c = Normal c' →
  entries_complete c'.
Proof.
  intros Hinj Hpending Hc Hm. apply onMessage_Normal in Hm as (k & q & _ & Hq & ->).
  destruct (Hpending _ _ Hq) as [-> Hqp]. intros p. simpl. intros Hp.
  assert (p ≠ q) as Hne.
  { intros ->. rewrite settle_lookup_pending in Hp by done.
    by destruct (frame_success message). }
  rewrite settle_lookup_ne in Hp by done.
  rewrite lookup_delete_ne; [by apply Hc|]. by intros Heq%(inj UUID_v4).
Qed.

Lemma entries_run evs :
  Inj (=) (=) UUID_v4 →
  pending_entries (subscribe_channel (run evs init)) ∧
  entries_complete (subscribe_channel (run evs init)).
Proof.
  intros Hinj.
  apply (lift_run (λ st, pending_entries (subscribe_channel st) ∧
                         entries_complete (subscribe_channel st))).
  - intros st st' _ _ Hch. by rewrite Hch.
  - intros st name id [H1 H2]. rewrite subscribe_channel_perform.
    split; [by apply pending_entries_send|by apply entries_complete_send].
  - intros st message c [H1 H2] Hm.
    split; [by eapply pending_entries_onMessage|by eapply entries_complete_onMessage].
  - split; intros ?; simpl; [intros ?|]; by rewrite ?lookup_empty.
Qed.

(** X4.  If [UUID.v4()] never returns the same id twice, then in every
    state the store reaches the pending entries of the subscribe channel
    are exactly its unsettled requests: an id names a promise iff it is
    the id that call of [send] was given and the promise is still
    pending.  No entry is left behind for a settled promise, and no
    pending promise is without its entry. *)
Theorem pending_entries_are_the_unsettled_requests
    (evs : list event) (k : string) (p : nat) :
  Inj (=) (=) UUID_v4 →
  cementMessages (subscribe_channel (run evs init)) !! k = Some p ↔
  k = UUID_v4 p ∧ promises (subscribe_channel (run evs init)) !! p = Some Pending.
Proof.
  intros Hinj. destruct (entries_run evs Hinj) as [Hpending Hcomplete]. split.
  - apply Hpending.
  - intros [-> Hp]. by apply Hcomplete.
Qed.

(** X5.  If [UUID.v4()] never returns the same id twice, a response that
    carries the id of a request still pending finds it: the handler
    returns, that request's promise is resolved with the decoded frame if
    its status is the number 0 and rejected with it otherwise, its entry
    is removed, and every other promise is as it was. *)
Theorem response_settles_its_request (evs : list event) (message : string) (p : nat) :
  Inj (=) (=) UUID_v4 →
  promises (subscribe_channel (run evs init)) !! p = Some Pending →
  frame_id message = Some (UUID_v4 p) →
  let st := run evs init in
  let st' := after (SubscribeMessage message) st in
  (∃ st'', step (SubscribeMessage message) st = Normal st'') ∧
  promises (subscribe_channel st') !! p
  = Some (if frame_success message then Resolved (frame_data message)
          else Rejected (frame_data message)) ∧
  (∀ q, q ≠ p → promises (subscribe_channel st') !! q
                = promises (subscribe_channel st) !! q) ∧
  cementMessages (subscribe_channel st') !! UUID_v4 p = None ∧
  (∀ k, k ≠ UUID_v4 p → cementMessages (subscribe_channel st') !! k
                        = cementMessages (subscribe_channel st) !! k).
Proof.
  intros Hinj Hp Hid st st'.
  destruct (entries_run evs Hinj) as [_ Hcomplete].
  pose proof (onMessage_matched message _ _ _ Hid (Hcomplete _ Hp)) as Hm.
  fold st in Hm, Hp.
  assert (step (SubscribeMessage message) st
          = Normal (set_socket
                      (set_subscribeCementChannel
                         {| cementMessages :=
                              delete (UUID_v4 p) (cementMessages (subscribe_channel st));
                            channel := channel (subscribe_channel st);
                            promises :=
                              settle p (if frame_success message
                                        then Resolved (frame_data message)
                                        else Rejected (frame_data message))
                                (promises (subscribe_channel st)) |}
                         (socket st)) st)) as Hstep.
  { unfold step. unfold subscribe_channel in Hm. by rewrite Hm. }
  unfold st', after. rewrite Hstep. simpl. split_and!.
  - by eexists.
  - by apply settle_lookup_pending.
  - intros q Hne. by apply settle_lookup_ne.
  - apply lookup_delete_eq.
  - intros k Hne. by apply lookup_delete_ne.
Qed.

(** X6.  In every state the store reaches, the frames sent on the
    subscribe channel are the requests performed, in order and one for
    one: request number [n], for (modelName, id), is the frame with the
    [n]th id of [UUID.v4()] whose data is the JSON text of the adapter's
    wire name for the model and the id; and there is one promise for each
    request. *)
Theorem frames_are_the_requests (evs : list event) :
  channel (subscribe_channel (run evs init))
  = imap subscribe_frame (subscribeTask (run evs init)) ∧
  length (promises (subscribe_channel (run evs init)))
  = length (subscribeTask (run evs init)).
Proof.
  by pose proof (registry_inv_run UUID_v4 pathForType shouldSubscribe evs init
                   (registry_inv_init UUID_v4 pathForType))
    as (_ & _ & _ & Hlen & Hchan).
Qed.

(** X7.  Nothing is ever taken back: under every further events a pair of
    the registry stays in the registry, the requests performed so far
    stay the first requests performed, and no model name has the same id
    twice. *)
Theorem registry_only_grows (evs later : list event) :
  (∀ name id, tracked (run evs init) name id →
              tracked (run (evs ++ later) init) name id) ∧
  subscribeTask (run evs init) `prefix_of` subscribeTask (run (evs ++ later) init) ∧
  (∀ name ids, subscriptions (run evs init) !! name = Some ids → NoDup ids).
Proof.
  split_and!.
  - intros name id Hin. rewrite run_app. by apply tracked_run.
  - rewrite run_app.
    apply (lift_run (λ st, subscribeTask (run evs init) `prefix_of` subscribeTask st)).
    + intros st st' _ Hlog _. by rewrite Hlog.
    + intros st name id Hst. simpl. by apply prefix_app_r.
    + done.
    + done.
  - by pose proof (registry_inv_run UUID_v4 pathForType shouldSubscribe evs init
                     (registry_inv_init UUID_v4 pathForType)) as (Hnodup & _).
Qed.

(** X8.  [_push] is idempotent: pushing once more what was just pushed
    changes nothing, whatever the state and the connection; no request is
    repeated and no id recorded twice. *)
Theorem push_is_idempotent (pushed : pushed_value) (st : Store) :
  (_push pushed (_push pushed st).2).2 = (_push pushed st).2.
Proof.
  rewrite !(push_for_of UUID_v4 pathForType shouldSubscribe). simpl.
  rewrite (for_of_again UUID_v4 pathForType shouldSubscribe track
             (λ s, connected (socket s))); [done| |].
  - apply track_cases.
  - apply track_performs_kept.
Qed.

Lemma bindings_run evs : bindings_inv (run evs init).
Proof.
  apply (lift_run bindings_inv).
  - unfold bindings_inv. intros st st' Hnames Hlog _. by rewrite Hnames, Hlog.
  - intros st name id [Hbound Hall]. split; simpl.
    + intros wire n. destruct (decide (pathForType name = wire)) as [<-|Hne].
      * rewrite lookup_insert_eq. intros [= <-]. split; [done|].
        exists id. apply elem_of_app. right. by apply list_elem_of_singleton.
      * rewrite lookup_insert_ne by done. intros Hn.
        destruct (Hbound _ _ Hn) as (Hwire & i & Hi).
        split; [done|]. exists i. apply elem_of_app. by left.
    + intros n i [Hin|Hin]%elem_of_app.
      * destruct (Hall _ _ Hin) as (n' & Hn' & Hwire).
        destruct (decide (pathForType name = pathForType n)) as [Heq|Hne].
        -- exists name. by rewrite <-Heq, lookup_insert_eq.
        -- exists n'. by rewrite lookup_insert_ne.
      * apply list_elem_of_singleton in Hin as [= -> ->].
        exists name. by rewrite lookup_insert_eq.
  - done.
  - split; simpl.
    + intros ??. by rewrite lookup_empty.
    + intros ?? Hin. by apply elem_of_nil in Hin.
Qed.

(** X9.  In every state the store reaches, [jsonapiModelNames] binds a
    wire name only to a model name that the adapter gives that wire name
    and for which a request was performed (so a pair of the registry);
    the wire name of every request performed is bound, to a model name
    with that wire name; and while the socket is connected the wire name
    of every pair of the registry is bound. *)
Theorem bindings_follow_the_requests (evs : list event) :
  let st := run evs init in
  (∀ wire name, jsonapiModelNames st !! wire = Some name →
                pathForType name = wire ∧
                ∃ id, (name, id) ∈ subscribeTask st ∧ tracked st name id) ∧
  (∀ name id, (name, id) ∈ subscribeTask st →
              ∃ name', jsonapiModelNames st !! pathForType name = Some name' ∧
                       pathForType name' = pathForType name) ∧
  (connected (socket st) = true →
   ∀ name id, tracked st name id → is_Some (jsonapiModelNames st !! pathForType name)).
Proof.
  intros st. destruct (bindings_run evs) as [Hbound Hall]. fold st in Hbound, Hall.
  pose proof (registry_inv_run UUID_v4 pathForType shouldSubscribe evs init
                (registry_inv_init UUID_v4 pathForType))
    as (_ & Hsent & Hconn & _).
  fold st in Hsent, Hconn. split_and!.
  - intros wire name Hname. destruct (Hbound _ _ Hname) as (Hwire & id & Hid).
    split; [done|]. exists id. split; [done|by apply Hsent].
  - done.
  - intros Hc name id Hin. destruct (Hall _ _ (Hconn Hc _ _ Hin)) as (n' & Hn' & _).
    by exists n'.
Qed.

(** X10.  Subscribing and dispatching compose: if the adapter gives
    different models different wire names, then once a request was
    performed for a model, a delete or update push that names the model's
    wire name is handed to the host under the model's own name. *)
Theorem push_for_a_requested_model_is_dispatched
    (evs : list event) (name id0 : string) (message : string) (m : json)
    (id payload : option json) (document : json) :
  Inj (=) (=) pathForType →
  (name, id0) ∈ subscribeTask (run evs init) →
  parse message = Normal m →
  get m "model" = Normal (Some (JStr (pathForType name))) →
  get m "id" = Normal id →
  let st := run evs init in
  step (DeletedMessage message) st
  = Normal (set_host (host st ++ [deleteRecordTask (Some name) id]) st) ∧
  (get m "payload" = Normal payload →
   parse (ToString_opt payload) = Normal document →
   step (UpdatedMessage message) st
   = Normal (set_host (host st ++ [pushPayload (Some name) document]) st)).
Proof.
  intros Hinj Hin Hm Hmodel Hid st.
  destruct (bindings_run evs) as [_ Hall].
  destruct (Hall _ _ Hin) as (name' & Hname & Hsame%(inj pathForType)). subst name'.
  fold st in Hname. split.
  - unfold step, _onModelDeleted, onModelDeleted. rewrite Hm; simpl.
    rewrite Hmodel; simpl. rewrite Hid; simpl. by rewrite Hname.
  - intros Hpayload Hdoc. unfold step, _onModelUpdated, onModelUpdated.
    rewrite Hm; simpl. rewrite Hmodel; simpl. rewrite Hid; simpl.
    rewrite Hpayload; simpl. rewrite Hdoc; simpl. by rewrite Hname.
Qed.


(** *** The socket's bookkeeping *)

Lemma onConnected_rest st :
  state (socket (onConnected st)) = state (socket st) ∧
  logger (onConnected st) = logger st ∧
  socketOnConnectedTask (socket (onConnected st)) = socketOnConnectedTask (socket st).
Proof.
  rewrite onConnected_perform_all.
  destruct (perform_all_frame UUID_v4 pathForType (pairs (subscriptions st)) st)
    as (_ & Hrest & Hstore & _).
  unfold socket_rest, store_rest in *.
  injection Hrest as _ Hstate _ Htasks _. injection Hstore as _ Hlogger _. done.
Qed.

Lemma bookkeeping_after ev st :
  state (socket (after ev st)) = last_poll [ev] (state (socket st)) ∧
  logger (after ev st)
  = logger st ++ ((λ args, ("socket error" : string) :: args) <$> socket_errors [ev]) ∧
  length (socketOnConnectedTask (socket (after ev st)))
  = connects [ev] + length (socketOnConnectedTask (socket st)).
Proof.
  unfold after, step.
  destruct ev as [args| | |k result|k|message|message|message|message|newState|pushed];
    simpl; rewrite ?app_nil_r; try done.
  - by rewrite length_app, Nat.add_comm.
  - unfold task_send. destruct (socketOnConnectedTask (socket st) !! k) as [[]|]; try done.
    destruct result; simpl; by rewrite length_insert.
  - unfold task_finish.
    destruct (socketOnConnectedTask (socket st) !! k) as [[|p| |]|]; try done.
    destruct (handshakes (socket st) !! p) as [[| |]|]; try done.
    + match goal with |- context [onConnected ?s] =>
        destruct (onConnected_rest s) as (-> & -> & ->)
      end.
      simpl. by rewrite length_insert.
    + simpl. by rewrite length_insert.
  - unfold socket_message. by destruct (onMessageFunc (glue (socket st))).
  - by destruct (onMessage message (subscribeCementChannel (socket st))).
  - unfold _onModelUpdated.
    destruct (parse message) as [m|]; simpl; [|done].
    destruct (get m "model"); simpl; [|done].
    destruct (get m "id"); simpl; [|done].
    destruct (get m "payload"); simpl; [|done].
    by destruct (parse _).
  - unfold _onModelDeleted.
    destruct (parse message) as [m|]; simpl; [|done].
    destruct (get m "model"); simpl; [|done].
    by destruct (get m "id").
  - unfold updateSocketStateTask. by case_bool_decide.
  - destruct (push_frame UUID_v4 pathForType shouldSubscribe pushed st)
      as (Hrest & Hstore & _).
    unfold socket_rest, store_rest in *.
    injection Hrest as _ Hstate _ Htasks _. injection Hstore as _ Hlogger _.
    by rewrite Hstate, Hlogger, Htasks.
Qed.

Lemma socket_errors_cons ev evs :
  socket_errors (ev :: evs) = socket_errors [ev] ++ socket_errors evs.
Proof. by destruct ev. Qed.

Lemma connects_cons ev evs : connects (ev :: evs) = connects [ev] + connects evs.
Proof. by destruct ev. Qed.

Lemma bookkeeping_run evs st :
  state (socket (run evs st)) = last_poll evs (state (socket st)) ∧
  logger (run evs st)
  = logger st ++ ((λ args, ("socket error" : string) :: args) <$> socket_errors evs) ∧
  length (socketOnConnectedTask (socket (run evs st)))
  = connects evs + length (socketOnConnectedTask (socket st)).
Proof.
  revert st. induction evs as [|ev evs IH]; intros st.
  - simpl. by rewrite app_nil_r.
  - rewrite run_cons, (socket_errors_cons ev evs), (connects_cons ev evs), fmap_app.
    destruct (IH (after ev st)) as (-> & -> & ->).
    destruct (bookkeeping_after ev st) as (-> & -> & ->).
    rewrite app_assoc. split_and!; [done..|lia].
Qed.

(** X12.  The observable [state] is what [socket.state()] returned at the
    last round of [updateSocketStateTask], and 'disconnected' before the
    first: no event of the transport and no other handler changes it, so
    it says nothing about whether the handshake was accepted. *)
Theorem state_is_the_last_polled (evs : list event) :
  state (socket (run evs init)) = last_poll evs "disconnected" ∧
  (∀ newState, state (socket (run (evs ++ [PollTick newState]) init)) = newState) ∧
  (∀ ev, (∀ newState, ev ≠ PollTick newState) →
         state (socket (run (evs ++ [ev]) init)) = state (socket (run evs init))).
Proof.
  split_and!.
  - apply bookkeeping_run.
  - intros newState. rewrite run_app. apply bookkeeping_run.
  - intros ev Hev. rewrite run_app.
    rewrite (proj1 (bookkeeping_run [ev] _)). destruct ev; try done.
    by destruct (Hev newState).
Qed.

(** X13.  The logger receives the errors of the transport, each once, in
    order and with 'socket error' put first, and nothing else: no other
    handler logs, whatever it is given. *)
Theorem only_socket_errors_are_logged (evs : list event) :
  logger (run evs init)
  = (λ args, ("socket error" : string) :: args) <$> socket_errors evs.
Proof. by rewrite (proj1 (proj2 (bookkeeping_run evs init))). Qed.

Lemma handshake_bookkeeping_after ev st :
  length (handshakes (socket st)) = length (sent (glue (socket st))) →
  (sent (glue (socket st)) ≠ [] → socketOnConnectedTask (socket st) ≠ []) →
  length (handshakes (socket (after ev st))) = length (sent (glue (socket (after ev st)))) ∧
  (sent (glue (socket (after ev st))) ≠ [] →
   socketOnConnectedTask (socket (after ev st)) ≠ []) ∧
  (∀ msg, msg ∈ sent (glue (socket (after ev st))) →
          msg ∈ sent (glue (socket st)) ∨ ∃ k, ev = ConnectionMessage k (Some msg)).
Proof.
  intros Hlen Hsent.
  assert (length (socketOnConnectedTask (socket st))
          ≤ length (socketOnConnectedTask (socket (after ev st))))%nat as Htasks.
  { rewrite (proj2 (proj2 (bookkeeping_after ev st))). lia. }
  assert (∀ ev', ev' = ev → (∀ k r, ev ≠ ConnectionMessage k r) →
                 (∀ m, ev ≠ SocketMessage m) →
                 length (handshakes (socket (after ev st)))
                 = length (sent (glue (socket (after ev st)))) ∧
                 (sent (glue (socket (after ev st))) ≠ [] →
                  socketOnConnectedTask (socket (after ev st)) ≠ []) ∧
                 (∀ msg, msg ∈ sent (glue (socket (after ev st))) →
                         msg ∈ sent (glue (socket st)) ∨
                         ∃ k, ev = ConnectionMessage k (Some msg))) as Hother.
  { intros ev' _ Hcm Hsm.
    destruct (socket_rest_after UUID_v4 pathForType shouldSubscribe ev st
                (no_connection_message ev st Hcm) Hsm)
      as [-> ->].
    split_and!; [done| |by left].
    intros Hne Hnil. apply Hsent in Hne. rewrite Hnil in Htasks.
    destruct (socketOnConnectedTask (socket st)); [done|simpl in Htasks; lia]. }
  destruct ev as [args| | |k r|k|m|m|m|m|newState|pushed]; try (by eapply Hother).
  - unfold after, step, task_send in *; simpl in *.
    destruct (socketOnConnectedTask (socket st) !! k) as [[]|] eqn:Hk;
      try (split_and!; [done..|by left]).
    destruct r as [msg|]; simpl; [|split_and!; [done| |by left]].
    + rewrite !length_app, Hlen. split_and!; [done| |].
      * intros _ Hnil. apply (f_equal length) in Hnil.
        rewrite length_insert in Hnil. apply lookup_lt_Some in Hk. simpl in Hnil. lia.
      * intros msg' [Hin|Hin%list_elem_of_singleton]%elem_of_app; [by left|].
        subst. right. by exists k.
    + intros _ Hnil. apply (f_equal length) in Hnil.
      rewrite length_insert in Hnil. apply lookup_lt_Some in Hk. simpl in Hnil. lia.
  - unfold after, step, socket_message; simpl.
    destruct (onMessageFunc (glue (socket st))) as [q|]; simpl;
      [|split_and!; [done..|by left]].
    split_and!; [|done|by left].
    rewrite <-Hlen. unfold connection_reply, resolve, reject.
    repeat case_bool_decide; by rewrite ?length_settle.
Qed.

(** X14.  In every state the socket reaches there is one instance of
    [socketOnConnectedTask] for each [connected] event of the transport,
    one handshake promise for each message sent on the main channel, and
    the socket has sent on the main channel nothing but connection
    messages that [connectionMessage()] resolved with; before the first
    [connected] event it has sent nothing. *)
Theorem handshakes_follow_the_connects (evs : list event) :
  let st := run evs init in
  length (socketOnConnectedTask (socket st)) = connects evs ∧
  length (handshakes (socket st)) = length (sent (glue (socket st))) ∧
  (∀ msg, msg ∈ sent (glue (socket st)) → ∃ k, ConnectionMessage k (Some msg) ∈ evs) ∧
  (connects evs = 0 → sent (glue (socket st)) = []).
Proof.
  intros st.
  assert (length (socketOnConnectedTask (socket st)) = connects evs) as Htasks.
  { unfold st. rewrite (proj2 (proj2 (bookkeeping_run evs init))). simpl. lia. }
  assert (length (handshakes (socket st)) = length (sent (glue (socket st))) ∧
          (sent (glue (socket st)) ≠ [] → socketOnConnectedTask (socket st) ≠ []) ∧
          (∀ msg, msg ∈ sent (glue (socket st)) →
                  ∃ k, ConnectionMessage k (Some msg) ∈ evs)) as (Hlen & Hsent & Hmsgs).
  { unfold st. clear Htasks st. induction evs as [|ev evs IH] using rev_ind.
    - split_and!; [done..|]. intros msg Hin. by apply elem_of_nil in Hin.
    - rewrite run_app. change (run [ev] ?s) with (after ev s).
      destruct IH as (Hlen & Hsent & Hmsgs).
      destruct (handshake_bookkeeping_after ev _ Hlen Hsent) as (Hlen' & Hsent' & Hmsgs').
      split_and!; [done..|]. intros msg Hin.
      destruct (Hmsgs' _ Hin) as [Hold|[k ->]].
      + destruct (Hmsgs _ Hold) as [k Hk]. exists k. apply elem_of_app. by left.
      + exists k. apply elem_of_app. right. by apply list_elem_of_singleton. }
  split_and!; try done.
  intros Hzero. destruct (sent (glue (socket st))) as [|msg l] eqn:Hl; [done|].
  exfalso. apply Hsent; [done|]. rewrite Hzero in Htasks.
  by destruct (socketOnConnectedTask (socket st)).
Qed.

(** *** The earlier revision of [_push] *)

Lemma track_earlier_cases model st :
  (faults st model = true ∧ track_earlier model st = Throw TypeError) ∨
  (faults st model = false ∧ track_earlier model st = Normal st ∧
   (shouldSubscribe model = false ∨ tracked st (modelName model) (record_id model))) ∨
  (faults st model = false ∧ shouldSubscribe model = true ∧
   ¬ tracked st (modelName model) (record_id model) ∧
   track_earlier model st
   = Normal (set_subscriptions
               (<[modelName model :=
                    default [] (subscriptions st !! modelName model) ++ [record_id model]]>
                  (subscriptions st))
               (subscribeTask_perform (modelName model) (record_id model) st))).
Proof.
  unfold faults, track_earlier, tracked.
  destruct (shouldSubscribe model); simpl; [|right; left; split_and!; [done..|by left]].
  destruct (subscriptions st !! modelName model) as [ids|] eqn:Hids; simpl.
  - right. case_bool_decide as Hin.
    + left. split_and!; [done| |by right].
      rewrite insert_id by done. by rewrite set_subscriptions_same.
    + right. by split_and!.
  - case_bool_decide as Hproto; simpl; [by left|].
    right. right. split_and!; try done. apply not_elem_of_nil.
Qed.

Lemma push_earlier_for_of pushed st :
  _push_earlier pushed st
  = ((for_of track_earlier (records pushed) st).1 ≫= λ _, Normal pushed,
     (for_of track_earlier (records pushed) st).2).
Proof. by destruct pushed. Qed.

(** X15.  In the earlier revision, [_push] performs the request for a new
    pair at once, connected or not: it records the pairs of the pushed
    records that are to be subscribed and are not in the registry yet,
    each once ([added]), and performs one request for each of them, in
    that order, putting its frame on the subscribe channel; pairs of the
    registry are recorded and requested no second time.  So it keeps
    this: a request has been performed for exactly the pairs of the
    registry, once each.  It returns what the store's own [_push]
    returned, or throws a [TypeError] at a record whose model name is the
    name of a member every object inherits. *)
Theorem earlier_push_requests_each_new_pair (pushed : pushed_value) (st : Store) :
  let st' := (_push_earlier pushed st).2 in
  ((_push_earlier pushed st).1 = Normal pushed ∨
   (_push_earlier pushed st).1 = Throw TypeError) ∧
  ((_push_earlier pushed st).1 = Throw TypeError ↔
   ∃ m, m ∈ records pushed ∧ faults st m = true) ∧
  ∃ added,
    NoDup added ∧
    (∀ n i, (n, i) ∈ added ↔
            ¬ tracked st n i ∧
            ∃ m, m ∈ handled st (records pushed) ∧ shouldSubscribe m = true ∧
                 modelName m = n ∧ record_id m = i) ∧
    (∀ n i, tracked st' n i ↔ tracked st n i ∨ (n, i) ∈ added) ∧
    subscribeTask st' = subscribeTask st ++ added ∧
    channel (subscribe_channel st')
    = channel (subscribe_channel st)
      ++ imap (λ k, subscribe_frame (length (promises (subscribe_channel st)) + k)) added ∧
    (NoDup (subscribeTask st) →
     (∀ name id, (name, id) ∈ subscribeTask st ↔ tracked st name id) →
     NoDup (subscribeTask st') ∧
     ∀ name id, (name, id) ∈ subscribeTask st' ↔ tracked st' name id).
Proof.
  intros st'.
  assert (st' = (for_of track_earlier (records pushed) st).2) as Hst'.
  { unfold st'. by rewrite push_earlier_for_of. }
  assert (∀ s subs name id,
            (λ _ : Store, true)
              (set_subscriptions subs
                 (if (λ _ : Store, true) s then subscribeTask_perform name id s else s))
            = (λ _ : Store, true) s) as Hkept by done.
  destruct (for_of_outcome UUID_v4 pathForType shouldSubscribe track_earlier
              (λ _, true) track_earlier_cases (records pushed) st)
    as [[Ho Hnone]|[Ho Hsome]].
  all: destruct (for_of_registers UUID_v4 pathForType shouldSubscribe track_earlier
                   (λ _, true) track_earlier_cases Hkept (records pushed) st)
         as (added & Hnodup & Hadded & Htracked & Hlog & Hchan & _).
  all: rewrite <-Hst' in Htracked, Hlog, Hchan.
  all: assert (NoDup (subscribeTask st) →
               (∀ name id, (name, id) ∈ subscribeTask st ↔ tracked st name id) →
               NoDup (subscribeTask st') ∧
               ∀ name id, (name, id) ∈ subscribeTask st' ↔ tracked st' name id) as Hinv.
  1, 3: intros Hlognodup Hiff; rewrite Hlog; split;
    [apply NoDup_app; split_and!; [done| |done];
       intros [n i] Hin Hin'; apply Hadded in Hin' as [Hnot _]; by apply Hnot, Hiff
    |intros n i; rewrite elem_of_app, Htracked, Hiff; done].
  all: rewrite push_earlier_for_of; simpl; rewrite Ho; simpl.
  - split_and!; [by left| |by exists added].
    split; [done|]. intros (m & Hin & Hm). specialize (Hnone m Hin). congruence.
  - split_and!; [by right|done|by exists added].
Qed.

(** X17.  What the server is sent for a request: in every state the
    store reaches, request number [n], for (modelName, id), is on the
    subscribe channel as a JSON text that reads back as the object of the
    [n]th id of [UUID.v4()] and a data string, and the data string is in
    turn a JSON text that reads back as the object of the adapter's wire
    name for the model and the id. *)
Theorem subscribe_frames_decode (evs : list event) (n : nat) (name id : string) :
  subscribeTask (run evs init) !! n = Some (name, id) →
  ∃ frame data,
    channel (subscribe_channel (run evs init)) !! n = Some frame ∧
    JSON_parse frame = Some (JObj [("id", JStr (UUID_v4 n)); ("data", JStr data)]) ∧
    JSON_parse data = Some (JObj [("model", JStr (pathForType name)); ("id", JStr id)]).
Proof.
  intros Hn.
  pose proof (registry_inv_run UUID_v4 pathForType shouldSubscribe evs init
                (registry_inv_init UUID_v4 pathForType))
    as (_ & _ & _ & _ & Hchan).
  eexists _, _. split_and!.
  - rewrite Hchan, list_lookup_imap, Hn. done.
  - apply JSON_parse_two_strings.
  - apply JSON_parse_two_strings.
Qed.

End Coverage.

(** * The claims at concrete inputs *)

(** A success frame that arrives after a rejection with the same id does
    not resolve the promise: the rejection settled it and removed the
    pending entry. *)
Lemma late_success_does_not_resolve :
  ¬ settled_by_any_response CementChannel_create "A" "x" [rejection_A; success_A].
Proof.
  intros [Hresolved _].
  destruct (proj2 Hresolved) as [v Hv].
  - exists success_A. split_and!; [|by vm_compute..].
    apply elem_of_cons. right. by apply list_elem_of_singleton.
  - vm_compute in Hv. discriminate.
Qed.

Lemma send_settled_by_first_response_witness :
  let evs := [Sent "B" "y"; Received success_B; Received rejection_A; Received success_A] in
  promises (channel_run evs (send "A" "x" CementChannel_create).2) !! 0
  = Some (Rejected (frame_data rejection_A)) ∧
  promises (channel_run [Received success_A_elapsed] (send "A" "x" CementChannel_create).2)
    !! 0
  = Some (Resolved (frame_data success_A_elapsed)).
Proof.
  intros evs. split.
  - destruct (send_settled_by_first_response CementChannel_create "A" "x" evs)
      as (_ & Hrejected & _).
    + apply channel_wf_create.
    + intros d Hin. unfold evs in Hin.
      repeat (apply elem_of_cons in Hin as [Hin|Hin]; [discriminate|]).
      by apply elem_of_nil in Hin.
    + apply Hrejected. exists rejection_A. by vm_compute.
  - destruct (send_settled_by_first_response CementChannel_create "A" "x"
                [Received success_A_elapsed])
      as (Hresolved & _).
    + apply channel_wf_create.
    + intros d Hin. apply elem_of_cons in Hin as [Hin|Hin]; [discriminate|].
      by apply elem_of_nil in Hin.
    + apply Hresolved. exists success_A_elapsed. by vm_compute.
Defined.

(** A disconnect and a reconnect after post 1 was subscribed: the replay
    performs the request for post 1 a second time. *)
Lemma replay_subscribes_each_tracked_pair_once_witness :
  let st := example_run (handshake 0 ++ [Push (PushedOne post1); SocketDisconnected]
                         ++ [SocketConnected; ConnectionMessage 1 (Some "hi");
                             SocketMessage "CONNECTION_ACCEPTED"]) init in
  connected (socket (example_after (TaskResumed 1) st)) = true ∧
  subscribeTask (example_after (TaskResumed 1) st) = [("post", "1"); ("post", "1")].
Proof.
  intros st.
  destruct (replay_subscribes_each_tracked_pair_once
              example_uuid example_pathForType shouldSubscribe_default
              (handshake 0 ++ [Push (PushedOne post1); SocketDisconnected]
               ++ [SocketConnected; ConnectionMessage 1 (Some "hi");
                   SocketMessage "CONNECTION_ACCEPTED"]) 1 1 VUndefined)
    as (Hconnected & Hlog & _).
  - by vm_compute.
  - by vm_compute.
  - split; [exact Hconnected|]. etrans; [exact Hlog|]. by vm_compute.
Defined.


(** No sentinel arrives: the handshake is still pending after the timeout. *)
Lemma handshake_without_sentinel_stays_pending :
  ¬ handshake_times_out
      (example_run [SocketConnected; ConnectionMessage 0 (Some "hi")] init) 0.
Proof. intros [e He]. vm_compute in He. discriminate. Qed.

(** The first sentinel of the exchange settles it; and a handshake whose
    exchange ends, a second one having started, before any sentinel has
    arrived stays pending, whatever arrives then. *)
Lemma handshake_settled_by_first_sentinel_witness :
  handshakes
    (socket (example_run
               [PollTick "connected"; SocketMessage "hello"; SocketDisconnected;
                SocketMessage "CONNECTION_DISALLOWED"; SocketMessage "CONNECTION_ACCEPTED"]
               (example_after (ConnectionMessage 0 (Some "hi"))
                  (example_after SocketConnected init)))) !! 0
  = Some (Rejected (VError "Connection was not accepted")) ∧
  handshakes
    (socket (example_run
               [SocketMessage "hello"; ConnectionMessage 1 (Some "hi");
                SocketMessage "CONNECTION_ACCEPTED"]
               (example_after (ConnectionMessage 0 (Some "hi"))
                  (example_run [SocketConnected; SocketConnected] init)))) !! 0
  = Some Pending.
Proof.
  split.
  - destruct (handshake_settled_by_first_sentinel
                example_uuid example_pathForType shouldSubscribe_default
                (example_after SocketConnected init) 0 "hi"
                [PollTick "connected"; SocketMessage "hello"; SocketDisconnected;
                 SocketMessage "CONNECTION_DISALLOWED"; SocketMessage "CONNECTION_ACCEPTED"])
      as (_ & _ & _ & Hdisallowed & _); [reflexivity|].
    by apply Hdisallowed.
  - destruct (handshake_settled_by_first_sentinel
                example_uuid example_pathForType shouldSubscribe_default
                (example_run [SocketConnected; SocketConnected] init) 0 "hi"
                [SocketMessage "hello"; ConnectionMessage 1 (Some "hi");
                 SocketMessage "CONNECTION_ACCEPTED"])
      as (_ & _ & _ & _ & _ & Hpending & _); [reflexivity|].
    by apply Hpending.
Defined.

(** The stray frame on the subscribe channel, one request pending. *)
Lemma unmatched_frame_throws_witness :
  onMessage stray_frame (subscribe_channel subscribed) = Throw TypeError ∧
  step example_uuid example_pathForType shouldSubscribe_default
    (SubscribeMessage stray_frame) subscribed = Throw TypeError ∧
  logger (example_after (SubscribeMessage stray_frame) subscribed) = [].
Proof.
  destruct (unmatched_frame_throws example_uuid example_pathForType shouldSubscribe_default
              stray_frame (subscribe_channel subscribed) "nobody")
    as (Hthrows & Hstep).
  - by vm_compute.
  - by vm_compute.
  - destruct (Hstep subscribed eq_refl) as [Hs Ha].
    split_and!; [exact Hthrows|exact Hs|]. unfold example_after. by rewrite Ha.
Defined.

(** A delete and an update for 'comment', which no subscription bound. *)
Lemma unbound_name_dispatched_as_undefined_witness :
  host (example_after (DeletedMessage comment_deleted) subscribed)
  = [deleteRecordTask None (Some (JStr "7"))] ∧
  host (example_after (UpdatedMessage comment_updated) subscribed)
  = [pushPayload None article_document] ∧
  logger (example_after (DeletedMessage comment_deleted) subscribed) = [] ∧
  logger (example_after (UpdatedMessage comment_updated) subscribed) = [].
Proof.
  destruct (unbound_name_dispatched_as_undefined
              example_uuid example_pathForType shouldSubscribe_default
              subscribed comment_deleted
              (JObj [("model", JStr "comment"); ("id", JStr "7")])
              (Some (JStr "comment")) (Some (JStr "7")) None JNull)
    as [Hdeleted _]; [by vm_compute..|].
  destruct (unbound_name_dispatched_as_undefined
              example_uuid example_pathForType shouldSubscribe_default
              subscribed comment_updated
              (JObj [("model", JStr "comment"); ("id", JStr "7");
                     ("payload", JStr (text "{'title':'x'}"))])
              (Some (JStr "comment")) (Some (JStr "7"))
              (Some (JStr (text "{'title':'x'}"))) article_document)
    as [_ Hupdated]; [by vm_compute..|].
  specialize (Hupdated eq_refl eq_refl).
  unfold example_after, after. rewrite Hdeleted, Hupdated. by vm_compute.
Defined.

(** The request for post 1 is still pending after the disconnect. *)
Lemma pending_request_survives_disconnect : ¬ disconnect_rejects_pending subscribed.
Proof.
  intros Hrejects. destruct (Hrejects "uuid-0" 0) as [e He]; [by vm_compute..|].
  vm_compute in He. discriminate.
Qed.

Lemma disconnect_leaves_requests_pending_witness :
  promises
    (subscribe_channel
       (example_run (SocketDisconnected :: handshake 1 ++ [SubscribeMessage stray_frame])
          subscribed)) !! 0
  = Some Pending.
Proof.
  destruct (disconnect_leaves_requests_pending
              example_uuid example_pathForType shouldSubscribe_default
              (handshake 0 ++ [Push (PushedOne post1)])
              (handshake 1 ++ [SubscribeMessage stray_frame]) "uuid-0" 0)
    as (_ & _ & Hpending); [by vm_compute..| |exact Hpending].
  intros m Hin. unfold handshake in Hin. simpl in Hin.
  repeat (apply elem_of_cons in Hin as [Hin|Hin]; [try discriminate|]).
  - injection Hin as ->. by vm_compute.
  - by apply elem_of_nil in Hin.
Defined.

(** After an accepted handshake, a second connection whose handshake is
    disallowed: the instance continues after the rejected handshake and
    the socket is still connected. *)
Lemma connected_survives_a_disallowed_handshake :
  ¬ not_connected_after_failed_handshake (example_run (handshake 0 ++ disallowed 1) init) 1.
Proof.
  intros Hclaim.
  specialize (Hclaim 1 (VError "Connection was not accepted") eq_refl eq_refl).
  vm_compute in Hclaim. discriminate.
Qed.

Lemma connected_only_after_accepted_handshake_witness :
  connected (socket (example_run (handshake 0 ++ disallowed 1 ++ [TaskResumed 1]) init))
  = true ∧
  onDisconnected_calls
    (example_run (handshake 0 ++ [SocketDisconnected; SocketConnected; SocketDisconnected])
       init) = 2.
Proof.
  split.
  - destruct (connected_only_after_accepted_handshake
                example_uuid example_pathForType shouldSubscribe_default
                (handshake 0 ++ disallowed 1 ++ [TaskResumed 1]) SocketConnected)
      as (Hconnected & _).
    apply Hconnected.
    exists [SocketConnected; ConnectionMessage 0 (Some "hi");
            SocketMessage "CONNECTION_ACCEPTED"], 0, 0, VUndefined,
           (disallowed 1 ++ [TaskResumed 1]).
    split_and!; [reflexivity..|].
    intros Hin. simpl in Hin.
    repeat (apply elem_of_cons in Hin as [Hin|Hin]; [discriminate|]).
    by apply elem_of_nil in Hin.
  - destruct (connected_only_after_accepted_handshake
                example_uuid example_pathForType shouldSubscribe_default
                (handshake 0 ++ [SocketDisconnected; SocketConnected; SocketDisconnected])
                SocketConnected) as (_ & _ & _ & _ & _ & _ & _ & _ & Hcalls).
    exact Hcalls.
Defined.

(** The only call is [pushPayload('post', payload)]: it carries no id. *)
Lemma update_handler_is_not_given_the_id : ¬ update_handler_receives_id subscribed.
Proof.
  intros (call & Hin & Hargs).
  assert (host (example_after (UpdatedMessage article_frame) subscribed)
          = [pushPayload (Some "post") article_document]) as Hhost by by vm_compute.
  rewrite Hhost in Hin. apply list_elem_of_singleton in Hin as ->. discriminate.
Qed.

Lemma article_update_pushes_post_payload_witness :
  host (example_after (UpdatedMessage article_frame) subscribed)
  = [pushPayload (Some "post") article_document].
Proof.
  destruct (article_update_pushes_post_payload
              example_uuid example_pathForType shouldSubscribe_default subscribed)
    as (_ & Hstep & _); [by vm_compute|].
  unfold example_after, after. by rewrite Hstep.
Defined.

(** A record of a model named 'constructor' is pushed: [_push] throws,
    where the store's own [_push] had returned the record. *)
Lemma push_throws_on_an_inherited_model_name_witness :
  _push example_uuid example_pathForType shouldSubscribe_default
    (PushedOne constructor1) subscribed
  = (Throw TypeError, subscribed) ∧
  step example_uuid example_pathForType shouldSubscribe_default
    (Push (PushedOne constructor1)) subscribed
  = Throw TypeError.
Proof.
  destruct (push_throws_on_an_inherited_model_name
              example_uuid example_pathForType shouldSubscribe_default
              (PushedOne constructor1) subscribed)
    as (_ & _ & Hstep & Hthrows & _).
  split.
  - apply Hthrows; [reflexivity|by left|reflexivity].
  - apply Hstep. exists (getRecord constructor1). split; [by left|reflexivity].
Defined.

(** * The further properties at concrete inputs *)

Lemma example_uuid_inj : Inj (=) (=) example_uuid.
Proof.
  intros n m Heq. unfold example_uuid in Heq. simpl in Heq.
  injection Heq as Heq. by apply (inj pretty).
Qed.

Lemma prefixed_pathForType_inj : Inj (=) (=) prefixed_pathForType.
Proof. intros n m Heq. unfold prefixed_pathForType in Heq. by injection Heq. Qed.

Lemma response_is_consumed_witness :
  onMessage success_A
    (channel_after (Received success_A) (send "A" "x" CementChannel_create).2)
  = Throw TypeError.
Proof.
  destruct (response_is_consumed success_A (send "A" "x" CementChannel_create).2
              (channel_after (Received success_A) (send "A" "x" CementChannel_create).2))
    as (_ & _ & _ & Hagain); [by vm_compute|exact Hagain].
Defined.

Lemma reused_id_orphans_the_earlier_promise_witness :
  promises
    (channel_run [Received success_A; Received rejection_A]
       (send "A" "y" (send "A" "x" CementChannel_create).2).2) !! 0
  = Some Pending.
Proof.
  destruct (reused_id_orphans_the_earlier_promise
              (send "A" "x" CementChannel_create).2 "A" "y" 0
              [Received success_A; Received rejection_A])
    as (_ & _ & Hpending).
  - apply channel_wf_send, channel_wf_create.
  - by vm_compute.
  - by vm_compute.
  - exact Hpending.
Defined.

Lemma pending_entries_are_the_unsettled_requests_witness :
  cementMessages (subscribe_channel subscribed) !! "uuid-0" = Some 0.
Proof.
  apply (pending_entries_are_the_unsettled_requests
           example_uuid example_pathForType shouldSubscribe_default
           (handshake 0 ++ [Push (PushedOne post1)]) "uuid-0" 0 example_uuid_inj).
  split; by vm_compute.
Defined.

Lemma response_settles_its_request_witness :
  promises (subscribe_channel (example_after (SubscribeMessage success_uuid_0) subscribed))
    !! 0
  = Some (Resolved (frame_data success_uuid_0)).
Proof.
  destruct (response_settles_its_request
              example_uuid example_pathForType shouldSubscribe_default
              (handshake 0 ++ [Push (PushedOne post1)]) success_uuid_0 0 example_uuid_inj)
    as (_ & Hsettled & _); [by vm_compute..|].
  etrans; [exact Hsettled|]. by vm_compute.
Defined.

Lemma push_for_a_requested_model_is_dispatched_witness :
  host (after example_uuid prefixed_pathForType shouldSubscribe_default
          (DeletedMessage api_post_deleted)
          (run example_uuid prefixed_pathForType shouldSubscribe_default
             (handshake 0 ++ [Push (PushedOne post1)]) init))
  = [deleteRecordTask (Some "post") (Some (JStr "1"))].
Proof.
  destruct (push_for_a_requested_model_is_dispatched
              example_uuid prefixed_pathForType shouldSubscribe_default
              (handshake 0 ++ [Push (PushedOne post1)]) "post" "1" api_post_deleted
              (JObj [("model", JStr "api-post"); ("id", JStr "1")])
              (Some (JStr "1")) None JNull prefixed_pathForType_inj)
    as [Hdeleted _]; [| by vm_compute..|].
  - vm_compute. by left.
  - unfold after. rewrite Hdeleted. by vm_compute.
Defined.

Lemma earlier_push_requests_each_new_pair_witness :
  subscribeTask
    (_push_earlier example_uuid example_pathForType shouldSubscribe_default
       (PushedArray [post1; post2; post1]) init).2
  = [("post", "1"); ("post", "2")] ∧
  NoDup (subscribeTask
           (_push_earlier example_uuid example_pathForType shouldSubscribe_default
              (PushedArray [post1; post2; post1]) init).2).
Proof.
  destruct (earlier_push_requests_each_new_pair
              example_uuid example_pathForType shouldSubscribe_default
              (PushedArray [post1; post2; post1]) init)
    as (_ & _ & added & _ & _ & _ & _ & _ & Hinv).
  destruct Hinv as [Hnodup _].
  - apply NoDup_nil_2.
  - intros name id. unfold tracked. simpl. rewrite lookup_empty. simpl.
    by rewrite !elem_of_nil.
  - split; [by vm_compute|exact Hnodup].
Defined.

Lemma subscribe_frames_decode_witness :
  ∃ frame data,
    channel (subscribe_channel subscribed) !! 0 = Some frame ∧
    JSON_parse frame = Some (JObj [("id", JStr "uuid-0"); ("data", JStr data)]) ∧
    JSON_parse data = Some (JObj [("model", JStr "article"); ("id", JStr "1")]).
Proof.
  apply (subscribe_frames_decode
           example_uuid example_pathForType shouldSubscribe_default
           (handshake 0 ++ [Push (PushedOne post1)]) 0 "post" "1").
  by vm_compute.
Defined.
